(** * url-to-gcs: a streaming URL -> Cloud Storage relay

    A shallow embedding of the action's sources (src/index.ts and
    src/upload.ts) and the properties its specification states about them.

    - [Js]      the ECMAScript string operations the sources call;
    - [Json]    [JSON.parse], as a lexer and a push-down parser;
    - [Fx]      the effects of a run: log lines, outputs, the failure signal,
                the calls to the collaborators, the body stream's counter;
    - [ByteCountingStream] the counting stream, from the specification;
    - [Upload]  src/upload.ts;
    - [Index]   src/index.ts;
    - [Fetcher] the retry policy of the fetcher, from the specification;
    - [Sample]  a few inputs and worlds to run the action on.

    Strings are sequences of UTF-16 code units, as in ECMAScript; a literal
    is written [lit "..."]. *)

From Stdlib Require Import ZArith NArith Ascii String.
From Stdlib.Strings Require Import Byte.
From stdpp Require Import base option list gmap.

Set Warnings "-register-all".
Local Open Scope N_scope.

(** ** ECMAScript strings *)

Module Js.

Definition jsstring : Type := list N.

Definition lit (s : string) : jsstring :=
  N_of_ascii <$> list_ascii_of_string s.
Arguments lit : simpl never.

(** A literal in which the apostrophe stands for the double quote. *)
Definition quoted (s : string) : jsstring :=
  (λ c, if bool_decide (c = 39) then 34 else c) <$> lit s.

(** WhiteSpace and LineTerminator code units, the ones [trim] strips. *)
Definition is_white_space (c : N) : bool :=
  bool_decide (c ∈ [9; 10; 11; 12; 13; 32; 160; 5760; 8232; 8233; 8239;
                    8287; 12288; 65279])
  || ((8192 <=? c) && (c <=? 8202)).

Fixpoint trimStart (s : jsstring) : jsstring :=
  match s with
  | c :: r => if is_white_space c then trimStart r else s
  | [] => []
  end.

Definition trimEnd (s : jsstring) : jsstring :=
  reverse (trimStart (reverse s)).

Definition trim (s : jsstring) : jsstring := trimEnd (trimStart s).

(** [s.startsWith(c)] for a one-unit pattern. *)
Definition startsWith (c : N) (s : jsstring) : bool :=
  match s with
  | d :: _ => bool_decide (d = c)
  | [] => false
  end.

(** [s.split(sep)] for a one-unit separator: never the empty list. *)
Fixpoint split (sep : N) (s : jsstring) : list jsstring :=
  match s with
  | [] => [[]]
  | c :: r =>
      if bool_decide (c = sep) then [] :: split sep r
      else match split sep r with
           | h :: t => (c :: h) :: t
           | [] => [[c]]
           end
  end.

(** [s.indexOf(c)]; [None] stands for -1. *)
Fixpoint indexOf (c : N) (s : jsstring) : option nat :=
  match s with
  | [] => None
  | d :: r => if bool_decide (d = c) then Some 0%nat else S <$> indexOf c r
  end.

(** [s.substring(i, j)] and [s.substring(i)] for i <= j. *)
Definition substring (i j : nat) (s : jsstring) : jsstring :=
  take (j - i) (drop i s).
Definition substring_from (i : nat) (s : jsstring) : jsstring := drop i s.

(** [l.join(sep)]. *)
Fixpoint join (sep : jsstring) (l : list jsstring) : jsstring :=
  match l with
  | [] => []
  | [x] => x
  | x :: r => x ++ sep ++ join sep r
  end.

Definition digit (d : N) : N := 48 + d.

Fixpoint decimal_fuel (fuel : nat) (n : N) (acc : jsstring) : jsstring :=
  match fuel with
  | O => acc
  | S f =>
      let acc' := digit (n mod 10) :: acc in
      if n <? 10 then acc' else decimal_fuel f (n / 10) acc'
  end.

(** [n.toString()] of a non-negative integer below 10^21. *)
Definition decimalN (n : N) : jsstring :=
  decimal_fuel (S (N.to_nat (N.log2 n))) n [].

(** [z.toString()] of an integer of magnitude below 10^21. *)
Definition decimal (z : Z) : jsstring :=
  if (z <? 0)%Z then 45 :: decimalN (Z.to_N (- z)) else decimalN (Z.to_N z).

(** [(n / 1024 / 1024).toFixed(2)]: n / 2^20 is exact in a double for a
    byte count, and [toFixed] rounds it to hundredths, ties upwards. *)
Definition toFixed2_MiB (n : N) : jsstring :=
  let h := (200 * n + 1048576) / 2097152 in
  decimalN (h / 100) ++ [46; digit (h mod 100 / 10); digit (h mod 10)].

Definition is_digit (c : N) : bool := (48 <=? c) && (c <=? 57).

Fixpoint digits_value (s : jsstring) (acc : N) : N * jsstring :=
  match s with
  | c :: r => if is_digit c then digits_value r (10 * acc + (c - 48))
              else (acc, s)
  | [] => (acc, [])
  end.

(** [parseInt(s, 10)]; [None] stands for NaN. *)
Definition parseInt10 (s : jsstring) : option Z :=
  let t := trimStart s in
  let neg := startsWith 45 t in
  let body := if neg || startsWith 43 t then drop 1 t else t in
  match body with
  | c :: _ =>
      if is_digit c then
        let v := Z.of_N (fst (digits_value body 0)) in
        Some (if neg then (- v)%Z else v)
      else None
  | [] => None
  end.

(** [s.toUpperCase()] on the Latin letters; the method names of HTTP have
    no other letters. *)
Definition toUpperCase (s : jsstring) : jsstring :=
  (λ c, if (97 <=? c) && (c <=? 122) then c - 32 else c) <$> s.

Arguments trim : simpl never.
Arguments decimalN : simpl never.
Arguments decimal : simpl never.
Arguments toFixed2_MiB : simpl never.
Arguments parseInt10 : simpl never.
Arguments toUpperCase : simpl never.
Arguments join : simpl never.

End Js.
Export Js.

(** ** JSON.parse *)

Module Json.

Inductive json : Type :=
  | JNull
  | JBool (b : bool)
  | JNumber (lexeme : jsstring)
  | JString (s : jsstring)
  | JArray (items : list json)
  | JObject (props : gmap jsstring json).

Inductive token : Type :=
  | TLBrace | TRBrace | TLBracket | TRBracket | TColon | TComma
  | TString (s : jsstring)
  | TNumber (lexeme : jsstring)
  | TTrue | TFalse | TNull.

Definition is_json_ws (c : N) : bool :=
  bool_decide (c ∈ [9; 10; 13; 32]).

(** The units of a number or of a literal name. *)
Definition is_word_unit (c : N) : bool :=
  is_digit c || ((97 <=? c) && (c <=? 122)) || ((65 <=? c) && (c <=? 90))
  || bool_decide (c ∈ [43; 45; 46]).

Fixpoint skip_digits (s : jsstring) : jsstring :=
  match s with
  | c :: r => if is_digit c then skip_digits r else s
  | [] => []
  end.

Definition strip_unit (cs : list N) (s : jsstring) : jsstring :=
  match s with
  | c :: r => if bool_decide (c ∈ cs) then r else s
  | [] => []
  end.

(** 0 | [1-9][0-9]* *)
Definition int_part (s : jsstring) : option jsstring :=
  match s with
  | c :: r =>
      if bool_decide (c = 48) then Some r
      else if is_digit c then Some (skip_digits r)
      else None
  | [] => None
  end.

(** [0-9]+ *)
Definition digits1 (s : jsstring) : option jsstring :=
  match s with
  | c :: r => if is_digit c then Some (skip_digits r) else None
  | [] => None
  end.

(** (. [0-9]+)? *)
Definition frac_part (s : jsstring) : option jsstring :=
  match s with
  | c :: r => if bool_decide (c = 46) then digits1 r else Some s
  | [] => Some []
  end.

(** ([eE] [+-]? [0-9]+)? *)
Definition exp_part (s : jsstring) : option jsstring :=
  match s with
  | c :: r =>
      if bool_decide (c ∈ [101; 69]) then digits1 (strip_unit [43; 45] r)
      else Some s
  | [] => Some []
  end.

(** -? int frac? exp? *)
Definition valid_number (w : jsstring) : bool :=
  match r1 ← int_part (strip_unit [45] w); r2 ← frac_part r1; exp_part r2 with
  | Some [] => true
  | _ => false
  end.

Definition classify (w : jsstring) : option token :=
  if bool_decide (w = lit "true") then Some TTrue
  else if bool_decide (w = lit "false") then Some TFalse
  else if bool_decide (w = lit "null") then Some TNull
  else if valid_number w then Some (TNumber w)
  else None.

Definition hex_value (c : N) : option N :=
  if is_digit c then Some (c - 48)
  else if (97 <=? c) && (c <=? 102) then Some (c - 87)
  else if (65 <=? c) && (c <=? 70) then Some (c - 55)
  else None.

Inductive lexstate : Type :=
  | LIdle
  | LWord (w : jsstring)
  | LString (acc : jsstring)
  | LEscape (acc : jsstring)
  | LUnicode (acc : jsstring) (seen : nat) (value : N).

(** One unit read between tokens; [k] lexes what follows. *)
Definition idle_step (c : N) (k : lexstate → option (list token))
  : option (list token) :=
  if is_json_ws c then k LIdle
  else if bool_decide (c = 123) then (TLBrace ::.) <$> k LIdle
  else if bool_decide (c = 125) then (TRBrace ::.) <$> k LIdle
  else if bool_decide (c = 91) then (TLBracket ::.) <$> k LIdle
  else if bool_decide (c = 93) then (TRBracket ::.) <$> k LIdle
  else if bool_decide (c = 58) then (TColon ::.) <$> k LIdle
  else if bool_decide (c = 44) then (TComma ::.) <$> k LIdle
  else if bool_decide (c = 34) then k (LString [])
  else if is_word_unit c then k (LWord [c])
  else None.

Definition unescape (c : N) : option N :=
  if bool_decide (c ∈ [34; 92; 47]) then Some c
  else if bool_decide (c = 98) then Some 8
  else if bool_decide (c = 102) then Some 12
  else if bool_decide (c = 110) then Some 10
  else if bool_decide (c = 114) then Some 13
  else if bool_decide (c = 116) then Some 9
  else None.

Fixpoint lex (st : lexstate) (s : jsstring) {struct s}
  : option (list token) :=
  match s with
  | [] =>
      match st with
      | LIdle => Some []
      | LWord w => t ← classify w; Some [t]
      | _ => None
      end
  | c :: r =>
      match st with
      | LIdle => idle_step c (λ st', lex st' r)
      | LWord w =>
          if is_word_unit c then lex (LWord (w ++ [c])) r
          else t ← classify w; (t ::.) <$> idle_step c (λ st', lex st' r)
      | LString acc =>
          if bool_decide (c = 34) then (TString acc ::.) <$> lex LIdle r
          else if bool_decide (c = 92) then lex (LEscape acc) r
          else if c <? 32 then None
          else lex (LString (acc ++ [c])) r
      | LEscape acc =>
          if bool_decide (c = 117) then lex (LUnicode acc 0 0) r
          else match unescape c with
               | Some d => lex (LString (acc ++ [d])) r
               | None => None
               end
      | LUnicode acc seen value =>
          match hex_value c with
          | Some h =>
              let value' := 16 * value + h in
              if bool_decide (seen = 3%nat)
              then lex (LString (acc ++ [value'])) r
              else lex (LUnicode acc (S seen) value') r
          | None => None
          end
      end
  end.

(** An enclosing array or object whose next element is being read. *)
Inductive frame : Type :=
  | FArray (items : list json)
  | FObject (props : gmap jsstring json) (key : jsstring).

Inductive pstate : Type :=
  | PValue (stk : list frame)
  | PArrayStart (stk : list frame)
  | PArrayNext (items : list json) (stk : list frame)
  | PObjectStart (stk : list frame)
  | PObjectNext (props : gmap jsstring json) (stk : list frame)
  | PKey (props : gmap jsstring json) (stk : list frame)
  | PColon (props : gmap jsstring json) (key : jsstring) (stk : list frame)
  | PDone (v : json).

(** A value is complete: it goes into the enclosing frame. A later
    property of the same name replaces the earlier one. *)
Definition complete (v : json) (stk : list frame) : pstate :=
  match stk with
  | [] => PDone v
  | FArray items :: stk' => PArrayNext (items ++ [v]) stk'
  | FObject props key :: stk' => PObjectNext (<[key := v]> props) stk'
  end.

Definition value_step (t : token) (stk : list frame) : option pstate :=
  match t with
  | TLBrace => Some (PObjectStart stk)
  | TLBracket => Some (PArrayStart stk)
  | TString s => Some (complete (JString s) stk)
  | TNumber n => Some (complete (JNumber n) stk)
  | TTrue => Some (complete (JBool true) stk)
  | TFalse => Some (complete (JBool false) stk)
  | TNull => Some (complete JNull stk)
  | _ => None
  end.

Definition step (st : pstate) (t : token) : option pstate :=
  match st, t with
  | PValue stk, _ => value_step t stk
  | PArrayStart stk, TRBracket => Some (complete (JArray []) stk)
  | PArrayStart stk, _ => value_step t (FArray [] :: stk)
  | PArrayNext items stk, TComma => Some (PValue (FArray items :: stk))
  | PArrayNext items stk, TRBracket => Some (complete (JArray items) stk)
  | PObjectStart stk, TRBrace => Some (complete (JObject ∅) stk)
  | PObjectStart stk, TString k => Some (PColon ∅ k stk)
  | PObjectNext props stk, TComma => Some (PKey props stk)
  | PObjectNext props stk, TRBrace => Some (complete (JObject props) stk)
  | PKey props stk, TString k => Some (PColon props k stk)
  | PColon props k stk, TColon => Some (PValue (FObject props k :: stk))
  | _, _ => None
  end.

Fixpoint steps (st : pstate) (ts : list token) : option pstate :=
  match ts with
  | [] => Some st
  | t :: ts' => st' ← step st t; steps st' ts'
  end.

(** [JSON.parse(text)]; [None] stands for the SyntaxError it throws. *)
Definition parse (text : jsstring) : option json :=
  ts ← lex LIdle text;
  st ← steps (PValue []) ts;
  match st with
  | PDone v => Some v
  | _ => None
  end.

(** The outermost frame of the stack is an object. *)
Definition object_root (stk : list frame) : Prop :=
  match last stk with
  | Some (FObject _ _) => True
  | _ => False
  end.

(** A parser state from which only an object can come out. *)
Definition rooted (st : pstate) : Prop :=
  match st with
  | PValue stk | PArrayStart stk | PArrayNext _ stk => object_root stk
  | PObjectStart stk | PObjectNext _ stk | PKey _ stk | PColon _ _ stk =>
      stk = [] ∨ object_root stk
  | PDone v => ∃ props, v = JObject props
  end.

(** A flat object: an object none of whose values is an array or an
    object. *)
Definition scalar (v : json) : Prop :=
  match v with
  | JArray _ | JObject _ => False
  | _ => True
  end.
Definition flat (v : json) : Prop :=
  ∃ props, v = JObject props ∧ map_Forall (λ _ x, scalar x) props.

(** [typeof v === 'object'] *)
Definition typeof_is_object (v : json) : bool :=
  match v with
  | JNull | JArray _ | JObject _ => true
  | _ => false
  end.

(** [Array.isArray(v)] *)
Definition isArray (v : json) : bool :=
  match v with
  | JArray _ => true
  | _ => false
  end.

(** The truthiness of a value in a condition; a number is falsy when the
    digits before its exponent are all zeros. *)
Definition truthy (v : json) : bool :=
  match v with
  | JNull => false
  | JBool b => b
  | JNumber n =>
      negb (forallb (λ c, negb (is_digit c) || bool_decide (c = 48))
              (take (default (length n)
                       (fst <$> list_find (λ c, c ∈ [101; 69]) n)) n))
  | JString s => negb (bool_decide (s = []))
  | JArray _ | JObject _ => true
  end.

End Json.
Export Json.

(** ** Effects of a run *)

Module Fx.

Inductive level : Type := Info | Warning | Error.

(** The text of a log line. Two renderings are left to the engine: the
    property order of [JSON.stringify] and the message of a SyntaxError. *)
Inductive text : Type :=
  | Text (s : jsstring)
  | TextJson (prefix : jsstring) (v : json)
  | TextSyntaxError (prefix : jsstring).

(** [error.response] of an HTTP client error; the fields are held as the
    catch block prints them, [None] for a falsy one. *)
Record AxiosResponse : Type := {
  status : jsstring;
  statusText : jsstring;
  headers : option jsstring;
  data : option jsstring;
}.

(** An instance of [Error]. [code], [errors] and [response] are [None]
    when the object has no such property; a falsy [code] or [errors] is
    the empty string, a falsy [response] is [Some None]. *)
Record ErrorObject : Type := {
  message : jsstring;
  stack : option jsstring;
  code : option jsstring;
  errors : option jsstring;
  response : option (option AxiosResponse);
  request : bool;
  config_url : jsstring;
  config_method : jsstring;
}.

(** [new Error(msg)]; the call-site frames of the stack are left out. *)
Definition new_Error (msg : jsstring) : ErrorObject :=
  {| message := msg; stack := Some (lit "Error: " ++ msg);
     code := None; errors := None; response := None; request := false;
     config_url := lit "undefined"; config_method := lit "undefined" |}.

(** A thrown value: an [Error], or anything else with its [typeof] and
    its [JSON.stringify(_, null, 2)]. *)
Inductive thrown : Type :=
  | ThrownError (e : ErrorObject)
  | ThrownValue (type_of : jsstring) (rendered : jsstring).

Definition chunk : Type := list byte.

Record DownloadOptions : Type := {
  url : jsstring;
  method : jsstring;
  req_headers : option json;
  req_data : jsstring;
  timeout : option Z;
  enableRetry : bool;
  authType : jsstring;
  authUsername : jsstring;
  authPassword : jsstring;
  authToken : jsstring;
}.

(** What [downloadAsStream] resolves to, as src/index.ts reads it. The
    body is the sequence of chunks the response will deliver. *)
Record DownloadResult : Type := {
  statusCode : Z;
  contentLengthHeader : Z;
  contentType : option jsstring;
  stream : list chunk;
}.

Record ObjectMetadata : Type := {
  md_cacheControl : option jsstring;
  md_metadata : option json;
}.

(** The options of [file.createWriteStream]. *)
Record WriteOptions : Type := {
  wo_contentType : option jsstring;
  wo_metadata : option ObjectMetadata;
  wo_predefinedAcl : option jsstring;
  wo_resumable : bool;
}.

(** The requests a run sends to its collaborators. *)
Inductive call : Type :=
  | CallExists (bucket object : jsstring)
  | CallFetch (opts : DownloadOptions)
  | CallWrite (bucket object : jsstring) (opts : WriteOptions)
  | CallSetStorageClass (bucket object storageClass : jsstring)
  | CallGetMetadata (bucket object : jsstring).

Inductive reply (A : Type) : Type :=
  | Ok (a : A)
  | Fail (e : thrown).
Arguments Ok {A} a.
Arguments Fail {A} e.

(** The write stream either finishes after the whole body, or emits an
    error once it has taken some chunks of it. *)
Inductive write_outcome : Type :=
  | WriteFinish
  | WriteError (taken : nat) (e : thrown).

(** How the collaborators answer during one run; each is asked at most
    once. [generation] of the metadata is [None] when absent. *)
Record World : Type := {
  exists_reply : reply bool;
  download_reply : reply DownloadResult;
  write_reply : write_outcome;
  storage_class_reply : reply ();
  metadata_reply : reply (option jsstring);
}.

Record state : Type := {
  logs : list (level * text);
  outputs : list (jsstring * jsstring);
  failure : option jsstring;
  calls : list call;
  bytesTransferred : N;
}.

Definition initial : state :=
  {| logs := []; outputs := []; failure := None; calls := [];
     bytesTransferred := 0 |}.

Inductive outcome (A : Type) : Type :=
  | Returned (a : A)
  | Threw (e : thrown).
Arguments Returned {A} a.
Arguments Threw {A} e.

(** A computation: it may log, set outputs, send requests, and throw. *)
Definition M (A : Type) : Type := state → outcome A * state.

#[export] Instance M_ret : MRet M := λ A a st, (Returned a, st).
#[export] Instance M_bind : MBind M := λ A B f m st,
  match m st with
  | (Returned a, st') => f a st'
  | (Threw e, st') => (Threw e, st')
  end.

Definition throw {A} (e : thrown) : M A := λ st, (Threw e, st).

(** [try { m } catch (error) { h error }] *)
Definition try_catch {A} (m : M A) (h : thrown → M A) : M A := λ st,
  match m st with
  | (Returned a, st') => (Returned a, st')
  | (Threw e, st') => h e st'
  end.

Definition when (b : bool) (m : M ()) : M () := if b then m else mret ().

(** [for (const x of l) { acc = body(acc, x) }] *)
Fixpoint for_of {A B} (body : B → A → M B) (acc : B) (l : list A) : M B :=
  match l with
  | [] => mret acc
  | x :: r => acc' ← body acc x; for_of body acc' r
  end.

(** The state with more log lines and nothing else changed. *)
Definition add_logs (st : state) (l : list (level * text)) : state :=
  {| logs := logs st ++ l; outputs := outputs st; failure := failure st;
     calls := calls st; bytesTransferred := bytesTransferred st |}.

Definition log (l : level) (t : text) : M () := λ st,
  (Returned (), add_logs st [(l, t)]).

Definition info (s : jsstring) : M () := log Info (Text s).
Definition warning (s : jsstring) : M () := log Warning (Text s).
Definition error (s : jsstring) : M () := log Error (Text s).

Definition setOutput (name value : jsstring) : M () := λ st,
  (Returned (),
   {| logs := logs st; outputs := outputs st ++ [(name, value)];
      failure := failure st; calls := calls st;
      bytesTransferred := bytesTransferred st |}).

(** [core.setFailed]: the failure signal, and an error line. *)
Definition setFailed (msg : jsstring) : M () := λ st,
  (Returned (),
   {| logs := logs st ++ [(Error, Text msg)]; outputs := outputs st;
      failure := Some msg; calls := calls st;
      bytesTransferred := bytesTransferred st |}).

Definition send (r : call) : M () := λ st,
  (Returned (),
   {| logs := logs st; outputs := outputs st; failure := failure st;
      calls := calls st ++ [r];
      bytesTransferred := bytesTransferred st |}).

(** A request and the collaborator's answer to it. *)
Definition ask {A} (r : call) (answer : reply A) : M A :=
  send r;;
  match answer with
  | Ok a => mret a
  | Fail e => throw e
  end.

Definition is_fetch (r : call) : bool :=
  match r with CallFetch _ => true | _ => false end.

(** The requests that reach the store to write the object. *)
Definition is_upload (r : call) : bool :=
  match r with
  | CallWrite _ _ _ | CallSetStorageClass _ _ _ | CallGetMetadata _ _ => true
  | _ => false
  end.

Definition fetch_calls (st : state) : nat :=
  length (List.filter is_fetch (calls st)).
Definition upload_calls (st : state) : nat :=
  length (List.filter is_upload (calls st)).

(** The state after more log lines, more calls and more bytes read from
    the body, the outputs and the failure signal being as they were. *)
Definition extend (st : state) (l : list (level * text)) (cs : list call)
    (n : N) : state :=
  {| logs := logs st ++ l; outputs := outputs st; failure := failure st;
     calls := calls st ++ cs; bytesTransferred := bytesTransferred st + n |}.

(** The state with more outputs, and the state with the failure signal. *)
Definition with_outputs (st : state) (outs : list (jsstring * jsstring))
  : state :=
  {| logs := logs st; outputs := outputs st ++ outs; failure := failure st;
     calls := calls st; bytesTransferred := bytesTransferred st |}.
Definition with_failure (st : state) (msg : jsstring) : state :=
  {| logs := logs st; outputs := outputs st; failure := Some msg;
     calls := calls st; bytesTransferred := bytesTransferred st |}.

(** A computation that returns, and only logs. *)
Definition logs_only {A} (m : M A) : Prop :=
  ∀ st, ∃ a l, m st = (Returned a, add_logs st l).

(** A computation that logs and gives the failure signal [msg]. *)
Definition fails_with (msg : jsstring) (m : M ()) : Prop :=
  ∀ st, ∃ l, m st = (Returned (), with_failure (add_logs st l) msg).

(** U+2713, the check mark that opens the closing log lines. *)
Definition check_mark : jsstring := [10003].

(** [a || b] on strings. *)
Definition or_else (a b : jsstring) : jsstring :=
  if bool_decide (a = []) then b else a.

(** [if (o) { f(o) }] on an optional string: the empty one is falsy. *)
Definition if_truthy (o : option jsstring) (f : jsstring → M ()) : M () :=
  match o with
  | Some (c :: s) => f (c :: s)
  | _ => mret ()
  end.

Definition truthy_string (o : option jsstring) : bool :=
  match o with
  | Some (_ :: _) => true
  | _ => false
  end.

(** [a || undefined] on a string. *)
Definition or_undefined (a : jsstring) : option jsstring :=
  if bool_decide (a = []) then None else Some a.

End Fx.
Export Fx.

(** ** The counting stream *)

Module ByteCountingStream.

(** Modelled from the spec: the pass-through stream that src/download.ts
    wraps around the response body is not among the sources. Section 4.3
    of the specification: every chunk is forwarded unchanged and the
    counter grows by the chunk's length. *)
Definition pass (c : chunk) : M chunk := λ st,
  (Returned c,
   {| logs := logs st; outputs := outputs st; failure := failure st;
      calls := calls st;
      bytesTransferred := bytesTransferred st + N.of_nat (length c) |}).

(** Modelled from the spec: [getBytesTransferred()] of that stream, which
    src/index.ts calls, is in src/download.ts too. Section 4.3: the count is
    readable at any time. *)
Definition getBytesTransferred : M N := λ st,
  (Returned (bytesTransferred st), st).

(** The length of a body, chunk by chunk. *)
Definition total (body : list chunk) : N :=
  foldr (λ c n, N.of_nat (length c) + n) 0 body.

End ByteCountingStream.

(** ** src/upload.ts *)

Module Upload.

Record UploadOptions : Type := {
  bucket : jsstring;
  objectName : jsstring;
  body : list chunk;
  contentLengthHint : option Z;
  up_contentType : option jsstring;
  cacheControl : option jsstring;
  metadata : option json;
  storageClass : option jsstring;
  predefinedAcl : option jsstring;
}.

Record UploadResult : Type := {
  generation : jsstring;
  gcsUrl : jsstring;
  objectExisted : option bool;
}.

(** [result[key] = value] on an object literal holding strings. The name
    [__proto__] reaches the accessor inherited from [Object.prototype],
    whose setter ignores a string: no property is created. *)
Definition assign (key value : jsstring) (result : gmap jsstring json)
  : gmap jsstring json :=
  if bool_decide (key = lit "__proto__") then result
  else <[key := JString value]> result.

Definition assign_pair (m : gmap jsstring json) (kv : jsstring * jsstring)
  : gmap jsstring json := assign kv.1 kv.2 m.

(** The [try] block of [parseKeyValuePairs]: [Some r] when it returns r,
    [None] when control goes on to the semicolon format. *)
Definition parse_as_json (name trimmed : jsstring)
  : M (option (option json)) :=
  match Json.parse trimmed with
  | Some parsed =>
      if negb (typeof_is_object parsed) || isArray parsed then
        warning (name ++ lit " must be a JSON object");;
        mret (Some None)
      else mret (Some (Some parsed))
  | None =>
      log Warning
        (TextSyntaxError (lit "Failed to parse " ++ name ++ lit " as JSON: "));;
      mret None
  end.

(** The body of the loop over the segments. *)
Definition parse_pair (name : jsstring) (result : gmap jsstring json)
    (pair : jsstring) : M (gmap jsstring json) :=
  let trimmedPair := trim pair in
  if bool_decide (trimmedPair = []) then mret result
  else
    match indexOf 61 trimmedPair with
    | None =>
        warning (lit "Skipping invalid " ++ name ++ lit " pair: "
                 ++ trimmedPair);;
        mret result
    | Some separatorIndex =>
        let key := trim (substring 0 separatorIndex trimmedPair) in
        let value := trim (substring_from (S separatorIndex) trimmedPair) in
        if bool_decide (key = []) then mret result
        else mret (assign key value result)
    end.

(** What the loop body does with a segment, apart from the log: the key
    and the value it assigns, if it assigns. *)
Definition pair_of (pair : jsstring) : option (jsstring * jsstring) :=
  let trimmedPair := trim pair in
  separatorIndex ← indexOf 61 trimmedPair;
  let key := trim (substring 0 separatorIndex trimmedPair) in
  if bool_decide (key = []) then None
  else Some (key, trim (substring_from (S separatorIndex) trimmedPair)).

(** The warning of the loop body for a segment, if it warns. *)
Definition skipped (name pair : jsstring) : option (level * text) :=
  let trimmedPair := trim pair in
  if bool_decide (trimmedPair = []) then None
  else match indexOf 61 trimmedPair with
       | None => Some (Warning, Text (lit "Skipping invalid " ++ name
                                      ++ lit " pair: " ++ trimmedPair))
       | Some _ => None
       end.

(** The semicolon-separated format. *)
Definition parse_as_pairs (name trimmed : jsstring) : M (option json) :=
  result ← for_of (parse_pair name) ∅ (split 59 trimmed);
  mret (if bool_decide (0 < size result)%nat then Some (JObject result)
        else None).

Definition parseKeyValuePairs (input : option jsstring) (name : jsstring)
  : M (option json) :=
  match input with
  | None => mret None
  | Some input =>
      if bool_decide (input = []) || bool_decide (trim input = [])
      then mret None
      else
        let trimmed := trim input in
        returned ← (if startsWith 123 trimmed
                    then parse_as_json name trimmed
                    else mret None);
        match returned with
        | Some r => mret r
        | None => parse_as_pairs name trimmed
        end
  end.

(** The semicolon form of a list of pairs: [k1=v1; k2=v2; ...]. *)
Definition segment (kv : jsstring * jsstring) : jsstring :=
  kv.1 ++ 61 :: kv.2.
Definition semicolon_form (pairs : list (jsstring * jsstring)) : jsstring :=
  join (lit "; ") (segment <$> pairs).

(** A key as the form has it: not empty, no white space around it, no
    [=] or [;] inside, no opening brace in front, and not the name of
    the inherited accessor. *)
Definition plain_key (k : jsstring) : Prop :=
  k ≠ [] ∧ trim k = k ∧ (61 ∉ k) ∧ (59 ∉ k) ∧ startsWith 123 k = false
  ∧ k ≠ lit "__proto__".
Definition plain_value (v : jsstring) : Prop := trim v = v ∧ (59 ∉ v).
Definition plain (kv : jsstring * jsstring) : Prop :=
  plain_key kv.1 ∧ plain_value kv.2.

(** The mapping of a list of pairs, a later pair over an earlier one. *)
Definition mapping (pairs : list (jsstring * jsstring))
  : gmap jsstring json :=
  foldl (λ m kv, <[kv.1 := JString kv.2]> m) ∅ pairs.

(** The value the last pair with a given key has. *)
Definition last_value (key : jsstring) (pairs : list (jsstring * jsstring))
  : option jsstring :=
  snd <$> last (filter (λ kv, kv.1 = key) pairs).

(** The value of a property of what the parser returned. *)
Definition property (r : option json) (key : jsstring) : option json :=
  match r with
  | Some (JObject props) => props !! key
  | _ => None
  end.

Definition parseMetadata (metadataInput : option jsstring)
  : M (option json) :=
  parseKeyValuePairs metadataInput (lit "metadata").

Definition validClasses : list jsstring :=
  [lit "STANDARD"; lit "NEARLINE"; lit "COLDLINE"; lit "ARCHIVE"].

(** The error of [validateStorageClass]. *)
Definition invalid_class (storageClass : jsstring) : thrown :=
  ThrownError (new_Error
    (lit "Invalid storage class: " ++ storageClass
     ++ lit ". Must be one of: " ++ join (lit ", ") validClasses)).

Definition validateStorageClass (storageClass : option jsstring)
  : M (option jsstring) :=
  match storageClass with
  | None => mret None
  | Some sc =>
      if bool_decide (sc = []) then mret None
      else if negb (bool_decide (sc ∈ validClasses)) then
        throw (invalid_class sc)
      else mret (Some sc)
  end.

Definition validAcls : list jsstring :=
  [lit "authenticatedRead"; lit "bucketOwnerFullControl";
   lit "bucketOwnerRead"; lit "private"; lit "projectPrivate";
   lit "publicRead"].

(** The error of [validatePredefinedAcl]. *)
Definition invalid_acl (acl : jsstring) : thrown :=
  ThrownError (new_Error
    (lit "Invalid predefined ACL: " ++ acl
     ++ lit ". Must be one of: " ++ join (lit ", ") validAcls)).

Definition validatePredefinedAcl (acl : option jsstring)
  : M (option jsstring) :=
  match acl with
  | None => mret None
  | Some a =>
      if bool_decide (a = []) then mret None
      else if negb (bool_decide (a ∈ validAcls)) then throw (invalid_acl a)
      else mret (Some a)
  end.

Definition is_truthy (o : option json) : bool :=
  match o with
  | Some v => truthy v
  | None => false
  end.

Definition prepare (options : UploadOptions) (acl : option jsstring)
  : WriteOptions :=
  {| wo_contentType := up_contentType options;
     wo_predefinedAcl := acl;
     wo_resumable := true;
     wo_metadata :=
       if truthy_string (cacheControl options)
          || is_truthy (metadata options)
       then Some {| md_cacheControl :=
                      if truthy_string (cacheControl options)
                      then cacheControl options else None;
                    md_metadata :=
                      if is_truthy (metadata options)
                      then metadata options else None |}
       else None |}.

(** The ['data'] listener: the progress counter and its log line. *)
Definition on_data (uploadedBytes : N) (c : chunk) : M N :=
  let uploadedBytes := uploadedBytes + N.of_nat (length c) in
  when ((uploadedBytes mod (1024 * 1024 * 10) =? 0)
        || (uploadedBytes <? 1024 * 1024 * 10))
    (info (lit "Uploaded: " ++ toFixed2_MiB uploadedBytes ++ lit " MB"));;
  mret uploadedBytes.

(** The chunks that flow from the body through the counting stream. *)
Definition flow (cs : list chunk) : M N :=
  for_of (λ uploadedBytes c,
            c' ← ByteCountingStream.pass c; on_data uploadedBytes c') 0 cs.

(** The progress lines of the chunks, from a count on. *)
Fixpoint progress (uploadedBytes : N) (cs : list chunk)
  : list (level * text) :=
  match cs with
  | [] => []
  | c :: r =>
      let uploadedBytes := uploadedBytes + N.of_nat (length c) in
      (if (uploadedBytes mod (1024 * 1024 * 10) =? 0)
          || (uploadedBytes <? 1024 * 1024 * 10)
       then [(Info, Text (lit "Uploaded: " ++ toFixed2_MiB uploadedBytes
                          ++ lit " MB"))]
       else [])
      ++ progress uploadedBytes r
  end.

(** [options.stream.pipe(writeStream)] until ['finish'] or ['error']. *)
Definition pipe (w : World) (cs : list chunk) : M () :=
  match write_reply w with
  | WriteFinish => flow cs;; mret ()
  | WriteError taken e => flow (take taken cs);; throw e
  end.

(** What the [catch] block of [uploadStreamToGCS] throws: an Error with
    the message of the Error caught, or the value caught when it is not
    an Error. *)
Definition rethrown (error : thrown) : thrown :=
  match error with
  | ThrownError e =>
      ThrownError (new_Error (lit "Failed to upload to GCS: " ++ message e))
  | _ => error
  end.

(** The log lines on the length hint and on the upload parameters. *)
Definition log_parameters (options : UploadOptions)
    (uploadOptions : WriteOptions) (storageClass predefinedAcl : option jsstring)
  : M () :=
  match contentLengthHint options with
  | Some hint =>
      if (0 <? hint)%Z then
        info (lit "Content-Length hint: " ++ decimal hint ++ lit " bytes ("
              ++ toFixed2_MiB (Z.to_N hint) ++ lit " MB)")
      else info (lit "Content-Length: unknown (will be determined during upload)")
  | None =>
      info (lit "Content-Length: unknown (will be determined during upload)")
  end;;
  info (lit "Content-Type: "
        ++ or_else (default [] (wo_contentType uploadOptions))
             (lit "not specified"));;
  if_truthy predefinedAcl (λ a, info (lit "Predefined ACL: " ++ a));;
  if_truthy storageClass (λ c, info (lit "Storage Class: " ++ c));;
  if_truthy (cacheControl options)
    (λ c, info (lit "Cache-Control: " ++ c));;
  when (is_truthy (metadata options))
    (log Info (TextJson (lit "Metadata: ")
                 (default JNull (metadata options)))).

(** The [try] block of [uploadStreamToGCS]: the write, the storage
    class, the generation. *)
Definition write_object (w : World) (options : UploadOptions)
    (uploadOptions : WriteOptions) (storageClass : option jsstring)
  : M UploadResult :=
  info (lit "Starting streaming upload to GCS...");;
  send (CallWrite (bucket options) (objectName options) uploadOptions);;
  pipe w (body options);;
  if_truthy storageClass
    (λ c, ask (CallSetStorageClass (bucket options) (objectName options) c)
            (storage_class_reply w));;
  generation ← ask (CallGetMetadata (bucket options) (objectName options))
                 (metadata_reply w);
  let generation := default [] generation in
  let gcsUrl := lit "gs://" ++ bucket options ++ lit "/"
                ++ objectName options in
  info (lit "Successfully uploaded to GCS");;
  info (lit "Generation: " ++ generation);;
  mret {| generation := generation; gcsUrl := gcsUrl;
          objectExisted := Some false |}.

Definition uploadStreamToGCS (w : World) (options : UploadOptions)
  : M UploadResult :=
  info (lit "Uploading to GCS: gs://" ++ bucket options ++ lit "/"
        ++ objectName options);;
  storageClass ← validateStorageClass (storageClass options);
  predefinedAcl ← validatePredefinedAcl (predefinedAcl options);
  let uploadOptions := prepare options predefinedAcl in
  log_parameters options uploadOptions storageClass predefinedAcl;;
  try_catch (write_object w options uploadOptions storageClass)
    (λ error, throw (rethrown error)).

(** *** The paths of [uploadStreamToGCS] *)

(** An optional string as a condition sees it. *)
Definition truthy_value (o : option jsstring) : option jsstring :=
  match o with
  | Some (c :: s) => Some (c :: s)
  | _ => None
  end.

Definition class_ok (options : UploadOptions) : Prop :=
  ∀ sc, truthy_value (storageClass options) = Some sc → sc ∈ validClasses.
Definition acl_ok (options : UploadOptions) : Prop :=
  ∀ a, truthy_value (predefinedAcl options) = Some a → a ∈ validAcls.

Definition write_call (options : UploadOptions) : call :=
  CallWrite (bucket options) (objectName options)
    (prepare options (truthy_value (predefinedAcl options))).
Definition class_calls (options : UploadOptions) : list call :=
  match truthy_value (storageClass options) with
  | Some sc => [CallSetStorageClass (bucket options) (objectName options) sc]
  | None => []
  end.
Definition metadata_call (options : UploadOptions) : call :=
  CallGetMetadata (bucket options) (objectName options).

Definition uploaded (options : UploadOptions) (g : option jsstring)
  : UploadResult :=
  {| generation := default [] g;
     gcsUrl := lit "gs://" ++ bucket options ++ lit "/" ++ objectName options;
     objectExisted := Some false |}.

(** [uploads w options o cs n]: in world [w] the upload comes to [o],
    having sent the calls [cs] and read [n] bytes of the body. *)
Inductive uploads (w : World) (options : UploadOptions)
  : outcome UploadResult → list call → N → Prop :=
  | uploads_bad_class sc :
      truthy_value (storageClass options) = Some sc →
      sc ∉ validClasses →
      uploads w options (Threw (invalid_class sc)) [] 0
  | uploads_bad_acl a :
      class_ok options →
      truthy_value (predefinedAcl options) = Some a →
      a ∉ validAcls →
      uploads w options (Threw (invalid_acl a)) [] 0
  | uploads_write_error taken e :
      class_ok options → acl_ok options →
      write_reply w = WriteError taken e →
      uploads w options (Threw (rethrown e)) [write_call options]
        (ByteCountingStream.total (take taken (body options)))
  | uploads_class_error sc e :
      class_ok options → acl_ok options →
      write_reply w = WriteFinish →
      truthy_value (storageClass options) = Some sc →
      storage_class_reply w = Fail e →
      uploads w options (Threw (rethrown e))
        (write_call options :: class_calls options)
        (ByteCountingStream.total (body options))
  | uploads_metadata_error e :
      class_ok options → acl_ok options →
      write_reply w = WriteFinish →
      (truthy_value (storageClass options) = None
       ∨ storage_class_reply w = Ok ()) →
      metadata_reply w = Fail e →
      uploads w options (Threw (rethrown e))
        (write_call options :: class_calls options
         ++ [metadata_call options])
        (ByteCountingStream.total (body options))
  | uploads_done g :
      class_ok options → acl_ok options →
      write_reply w = WriteFinish →
      (truthy_value (storageClass options) = None
       ∨ storage_class_reply w = Ok ()) →
      metadata_reply w = Ok g →
      uploads w options (Returned (uploaded options g))
        (write_call options :: class_calls options
         ++ [metadata_call options])
        (ByteCountingStream.total (body options)).

End Upload.
Export Upload.

(** ** src/index.ts *)

(** The file holds two variants of [run]. The embedding is of the first,
    which asks whether the object exists before it downloads; the second,
    older one downloads first and leaves the check to the upload. *)

Module Index.

(** The inputs of the action, by name; an input not given is absent. *)
Definition Inputs : Type := gmap jsstring jsstring.

(** [core.getInput(name)] *)
Definition getInput (inp : Inputs) (name : string) : jsstring :=
  trim (default [] (inp !! lit name)).

(** The input is given, and not with the empty string. *)
Definition supplied (inp : Inputs) (name : string) : Prop :=
  default [] (inp !! lit name) ≠ [].

(** [core.getInput(name, { required: true })] *)
Definition getRequiredInput (inp : Inputs) (name : string) : M jsstring :=
  if bool_decide (default [] (inp !! lit name) = []) then
    throw (ThrownError (new_Error
      (lit "Input required and not supplied: " ++ lit name)))
  else mret (getInput inp name).

(** Modelled from the spec: [parseHeaders] is exported by src/download.ts,
    which is not among the sources. Section 4.1 of the specification: the
    parser of the metadata is shared for the HTTP headers, with another
    label for the diagnostics. *)
Definition parseHeaders (headersInput : option jsstring) : M (option json) :=
  parseKeyValuePairs headersInput (lit "headers").

(** [downloadAsStream(options)], through the collaborator's answer. *)
Definition downloadAsStream (w : World) (options : DownloadOptions)
  : M DownloadResult :=
  ask (CallFetch options) (download_reply w).

Definition objectExists (w : World) (bucket objectName : jsstring)
  : M bool :=
  try_catch (ask (CallExists bucket objectName) (exists_reply w))
    (λ error, throw error).

(** The message of the failure signal for a thrown value. *)
Definition failure_message (err : thrown) : jsstring :=
  match err with
  | ThrownError e => lit "Action failed: " ++ message e
  | ThrownValue _ _ =>
      lit "An unknown error occurred - check logs for details"
  end.

(** The [catch] block of [run]. *)
Definition report (err : thrown) : M () :=
  error (lit "Action failed with error:");;
  match err with
  | ThrownError e =>
      error (lit "Error: " ++ message e);;
      if_truthy (stack e)
        (λ s, error (lit "Stack trace:");; error s);;
      when (bool_decide (is_Some (code e)) || bool_decide (is_Some (errors e)))
        (error (lit "GCS Error Details:");;
         if_truthy (code e) (λ c, error (lit "  Error Code: " ++ c));;
         if_truthy (errors e) (λ c, error (lit "  Errors: " ++ c));;
         if_truthy (Some (message e))
           (λ m, error (lit "  Message: " ++ m)));;
      match response e with
      | Some resp =>
          error (lit "HTTP Error Details:");;
          match resp with
          | Some r =>
              error (lit "  Status: " ++ status r ++ lit " " ++ statusText r);;
              error (lit "  URL: " ++ config_url e);;
              error (lit "  Method: " ++ config_method e);;
              if_truthy (headers r)
                (λ h, error (lit "  Response Headers:");; error h);;
              if_truthy (data r)
                (λ responseData,
                   error (lit "  Response Body:");;
                   error (substring 0 500 responseData
                          ++ if bool_decide (500 < length responseData)%nat
                             then lit "..." else []))
          | None =>
              when (request e)
                (error (lit "  No response received from server");;
                 error (lit "  URL: " ++ config_url e))
          end
      | None => mret ()
      end;;
      setFailed (lit "Action failed: " ++ message e)
  | ThrownValue type_of rendered =>
      error (lit "Unknown error type: " ++ type_of);;
      error (lit "Error value: " ++ rendered);;
      setFailed (lit "An unknown error occurred - check logs for details")
  end.

(** The constants the [try] block of [run] binds before the transfer:
    the inputs, and the headers and metadata parsed from them. *)
Record Settings : Type := {
  s_url : jsstring;
  s_gcsBucket : jsstring;
  s_gcsObject : jsstring;
  s_method : jsstring;
  s_postData : jsstring;
  s_timeout : option Z;
  s_enableRetry : bool;
  s_authType : jsstring;
  s_authUsername : jsstring;
  s_authPassword : jsstring;
  s_authToken : jsstring;
  s_contentTypeOverride : jsstring;
  s_cacheControl : jsstring;
  s_storageClass : jsstring;
  s_predefinedAcl : jsstring;
  s_ifNotExists : bool;
  s_headers : option json;
  s_metadata : option json;
}.

(** The storage class of the run: the input, or the default. *)
Definition storage_class (inp : Inputs) : jsstring :=
  or_else (getInput inp "storage-class") (lit "STANDARD").

Definition settings_of (inp : Inputs) (url gcsBucket gcsObject : jsstring)
    (headers metadata : option json) : Settings :=
  {| s_url := url;
     s_gcsBucket := gcsBucket;
     s_gcsObject := gcsObject;
     s_method := or_else (getInput inp "method") (lit "GET");
     s_postData := getInput inp "post-data";
     s_timeout :=
       parseInt10 (or_else (getInput inp "timeout") (lit "900000"));
     s_enableRetry := bool_decide (getInput inp "enable-retry" = lit "true");
     s_authType := getInput inp "auth-type";
     s_authUsername := getInput inp "auth-username";
     s_authPassword := getInput inp "auth-password";
     s_authToken := getInput inp "auth-token";
     s_contentTypeOverride := getInput inp "content-type";
     s_cacheControl := getInput inp "cache-control";
     s_storageClass := storage_class inp;
     s_predefinedAcl := getInput inp "predefined-acl";
     s_ifNotExists := bool_decide (getInput inp "if-not-exists" = lit "true");
     s_headers := headers;
     s_metadata := metadata |}.

(** "Get inputs" and "Parse headers and metadata". *)
Definition read_settings (inp : Inputs) : M Settings :=
  url ← getRequiredInput inp "url";
  gcsBucket ← getRequiredInput inp "gcs-bucket";
  gcsObject ← getRequiredInput inp "gcs-object";
  headers ← parseHeaders (Some (getInput inp "headers"));
  metadata ← parseMetadata (Some (getInput inp "metadata"));
  mret (settings_of inp url gcsBucket gcsObject headers metadata).

Definition gs_url (s : Settings) : jsstring :=
  lit "gs://" ++ s_gcsBucket s ++ lit "/" ++ s_gcsObject s.

(** The block under [if (ifNotExists)]: [true] when it returns from
    [run], the object being there already. *)
Definition skip_if_exists (w : World) (s : Settings) : M bool :=
  info (lit "Checking if GCS object already exists...");;
  exists_ ← objectExists w (s_gcsBucket s) (s_gcsObject s);
  if exists_ : bool then
    info (lit "Object already exists at " ++ gs_url s);;
    info (lit "Skipping download and upload due to if-not-exists flag");;
    setOutput (lit "status-code") (lit "0");;
    setOutput (lit "content-length") (lit "0");;
    setOutput (lit "gcs-url") (gs_url s);;
    setOutput (lit "generation") [];;
    setOutput (lit "object-existed") (lit "true");;
    info (check_mark ++ lit " Action completed - object already existed, no download or upload needed");;
    mret true
  else
    info (lit "Object does not exist, proceeding with download and upload");;
    mret false.

Definition download_options (s : Settings) : DownloadOptions :=
  {| url := s_url s; method := toUpperCase (s_method s);
     req_headers := s_headers s; req_data := s_postData s;
     timeout := s_timeout s; enableRetry := s_enableRetry s;
     authType := s_authType s; authUsername := s_authUsername s;
     authPassword := s_authPassword s; authToken := s_authToken s |}.

Definition upload_options (s : Settings) (downloadResult : DownloadResult)
  : UploadOptions :=
  {| bucket := s_gcsBucket s; objectName := s_gcsObject s;
     body := stream downloadResult;
     contentLengthHint := Some (contentLengthHeader downloadResult);
     up_contentType :=
       if bool_decide (s_contentTypeOverride s = [])
       then contentType downloadResult
       else Some (s_contentTypeOverride s);
     cacheControl := or_undefined (s_cacheControl s);
     metadata := s_metadata s;
     storageClass := Some (s_storageClass s);
     predefinedAcl := or_undefined (s_predefinedAcl s) |}.

(** The warning of the reconciliation, when the header is wrong. *)
Definition discrepancy (actualBytesTransferred : N) (header : Z) : jsstring :=
  lit "Bytes transferred (" ++ decimalN actualBytesTransferred
  ++ lit ") differs from Content-Length header (" ++ decimal header
  ++ lit ")".

(** From the download to the outputs. *)
Definition relay (w : World) (s : Settings) : M () :=
  info (lit "Starting streaming download from URL...");;
  downloadResult ← downloadAsStream w (download_options s);
  info (lit "HTTP request successful, streaming to GCS...");;
  uploadResult ← uploadStreamToGCS w (upload_options s downloadResult);
  info (lit "Stream upload completed successfully");;
  actualBytesTransferred ← ByteCountingStream.getBytesTransferred;
  info (lit "Total bytes transferred: " ++ decimalN actualBytesTransferred
        ++ lit " bytes (" ++ toFixed2_MiB actualBytesTransferred
        ++ lit " MB)");;
  when ((0 <? contentLengthHeader downloadResult)%Z
        && negb (bool_decide (Z.of_N actualBytesTransferred
                              = contentLengthHeader downloadResult)))
    (warning (discrepancy actualBytesTransferred
                (contentLengthHeader downloadResult)));;
  setOutput (lit "status-code") (decimal (statusCode downloadResult));;
  setOutput (lit "content-length") (decimalN actualBytesTransferred);;
  setOutput (lit "gcs-url") (gcsUrl uploadResult);;
  setOutput (lit "generation") (generation uploadResult);;
  setOutput (lit "object-existed") (lit "false");;
  info (check_mark ++ lit " Action completed successfully - content streamed directly to GCS").

(** The [try] block of [run]. *)
Definition transfer (w : World) (inp : Inputs) : M () :=
  s ← read_settings inp;
  skipped ← (if s_ifNotExists s then skip_if_exists w s else mret false);
  if skipped : bool then mret () else relay w s.

Definition run (w : World) (inp : Inputs) : M () :=
  try_catch (transfer w inp) report.

(** The state a run of the action ends in. *)
Definition final (w : World) (inp : Inputs) : state :=
  snd (run w inp initial).

(** *** The paths of [run] *)

(** The outputs of a skipped run, and those of a transfer. *)
Definition skipped_outputs (s : Settings) : list (jsstring * jsstring) :=
  [(lit "status-code", lit "0"); (lit "content-length", lit "0");
   (lit "gcs-url", gs_url s); (lit "generation", []);
   (lit "object-existed", lit "true")].

Definition transfer_outputs (downloadResult : DownloadResult)
    (actualBytesTransferred : N) (uploadResult : UploadResult)
  : list (jsstring * jsstring) :=
  [(lit "status-code", decimal (statusCode downloadResult));
   (lit "content-length", decimalN actualBytesTransferred);
   (lit "gcs-url", gcsUrl uploadResult);
   (lit "generation", generation uploadResult);
   (lit "object-existed", lit "false")].

Definition required : list string := ["url"; "gcs-bucket"; "gcs-object"]%string.

(** The error of [core.getInput] for a required input that is missing. *)
Definition missing (name : string) : thrown :=
  ThrownError (new_Error
    (lit "Input required and not supplied: " ++ lit name)).

(** The settings a run with its required inputs reads. *)
Definition reads (inp : Inputs) (s : Settings) : Prop :=
  supplied inp "url" ∧ supplied inp "gcs-bucket" ∧ supplied inp "gcs-object"
  ∧ ∃ headers metadata,
      s = settings_of inp (getInput inp "url") (getInput inp "gcs-bucket")
            (getInput inp "gcs-object") headers metadata.

(** The existence check is not asked for, or finds no object. *)
Definition proceeds (w : World) (s : Settings) : Prop :=
  s_ifNotExists s = false ∨ exists_reply w = Ok false.

Definition check_calls (s : Settings) : list call :=
  if s_ifNotExists s then [CallExists (s_gcsBucket s) (s_gcsObject s)]
  else [].

(** [transfers w inp l o cs n outs]: in world [w] the [try] block of
    [run] comes to [o], with the log [l], the calls [cs], [n] bytes read
    from the body, and the outputs [outs]. The constructors are the ways
    through the orchestrator: a required input missing, the existence
    check failing, the object found, the fetch failing, the upload
    failing, the transfer done. *)
Inductive transfers (w : World) (inp : Inputs)
  : list (level * text) → outcome () → list call → N
    → list (jsstring * jsstring) → Prop :=
  | transfers_missing l name :
      name ∈ required → ¬ supplied inp name →
      transfers w inp l (Threw (missing name)) [] 0 []
  | transfers_check_error l s e :
      reads inp s → s_ifNotExists s = true → exists_reply w = Fail e →
      transfers w inp l (Threw e) (check_calls s) 0 []
  | transfers_skipped l s :
      reads inp s → s_ifNotExists s = true → exists_reply w = Ok true →
      transfers w inp l (Returned ()) (check_calls s) 0 (skipped_outputs s)
  | transfers_fetch_error l s e :
      reads inp s → proceeds w s → download_reply w = Fail e →
      transfers w inp l (Threw e)
        (check_calls s ++ [CallFetch (download_options s)]) 0 []
  | transfers_upload_error l s dr e cs n :
      reads inp s → proceeds w s → download_reply w = Ok dr →
      uploads w (upload_options s dr) (Threw e) cs n →
      transfers w inp l (Threw e)
        (check_calls s ++ CallFetch (download_options s) :: cs) n []
  | transfers_done l s dr r cs n :
      reads inp s → proceeds w s → download_reply w = Ok dr →
      uploads w (upload_options s dr) (Returned r) cs n →
      ((0 < contentLengthHeader dr)%Z →
       Z.of_N n ≠ contentLengthHeader dr →
       (Warning, Text (discrepancy n (contentLengthHeader dr))) ∈ l) →
      transfers w inp l (Returned ())
        (check_calls s ++ CallFetch (download_options s) :: cs) n
        (transfer_outputs dr n r).

(** The state [run] ends in, for a way through the [try] block: the
    outputs as they are, or the failure signal after the log lines [l']
    of the [catch] block. *)
Definition ending (l l' : list (level * text)) (o : outcome ())
    (cs : list call) (n : N) (outs : list (jsstring * jsstring)) : state :=
  match o with
  | Returned _ => with_outputs (extend initial l cs n) outs
  | Threw e =>
      with_failure (add_logs (with_outputs (extend initial l cs n) outs) l')
        (failure_message e)
  end.

Arguments getInput : simpl never.
Arguments storage_class : simpl never.
Arguments gs_url : simpl never.
Arguments discrepancy : simpl never.

End Index.
Export Index.

(** ** The retry policy of the fetcher *)

Module Fetcher.

(** Modelled from the spec: the fetcher is src/download.ts, which is not
    among the sources. What one attempt of the transport comes to, by
    sections 4.2 and 7 of the specification: a response whose body can be
    streamed, a network error, or a status that stands for a failure. *)
Inductive attempt : Type :=
  | Responded (r : DownloadResult)
  | NetworkError (e : ErrorObject)
  | HttpStatusError (status : Z) (e : ErrorObject).

(** Modelled from the spec: the transient failures of section 4.2 are the
    network errors and the 5xx and 429 statuses. *)
Definition transient (a : attempt) : bool :=
  match a with
  | Responded _ => false
  | NetworkError _ => true
  | HttpStatusError status _ =>
      ((500 <=? status) && (status <=? 599) || (status =? 429))%Z
  end.

(** Modelled from the spec: at most three attempts in all. *)
Definition max_attempts : nat := 3.

(** Modelled from the spec: what a fetch comes to, with the number of
    attempts made and the delays waited between them; src/download.ts is
    not among the sources. *)
Record fetched : Type := {
  result : attempt;
  attempts : nat;
  delays : list N;
}.

(** Modelled from the spec: the delay before the attempt after the n-th
    one doubles with n, and the jitter is added to it. *)
Definition backoff (base : N) (jitter : nat → N) (n : nat) : N :=
  base * 2 ^ N.of_nat (n - 1) + jitter n.

(** Modelled from the spec: the n-th attempt, with [retries] more allowed
    after it. A transient failure is retried after the backoff delay;
    anything else, and the last attempt allowed, is what [fetch] comes to.
    [transport n] is what the n-th attempt comes to. *)
Fixpoint attempt_from (transport : nat → attempt) (base : N)
    (jitter : nat → N) (n retries : nat) : fetched :=
  let a := transport n in
  match retries with
  | S retries' =>
      if transient a then
        let f := attempt_from transport base jitter (S n) retries' in
        {| result := result f; attempts := attempts f;
           delays := backoff base jitter n :: delays f |}
      else {| result := a; attempts := n; delays := [] |}
  | O => {| result := a; attempts := n; delays := [] |}
  end.

(** Modelled from the spec: [fetch] of section 4.2, as far as retrying
    goes: one attempt, or up to [max_attempts] when retry is enabled. *)
Definition fetch (retryEnabled : bool) (transport : nat → attempt)
    (base : N) (jitter : nat → N) : fetched :=
  attempt_from transport base jitter 1
    (if retryEnabled then max_attempts - 1 else 0).

End Fetcher.

(** ** Sample runs *)

Module Sample.

Definition inputs : Inputs :=
  {[ lit "url" := lit "https://example.com/data.json";
     lit "gcs-bucket" := lit "my-bucket";
     lit "gcs-object" := lit "downloads/data.json" ]}.

Definition inputs_if_not_exists : Inputs :=
  <[lit "if-not-exists" := lit "true"]> inputs.

Definition inputs_foo : Inputs :=
  <[lit "storage-class" := lit "FOO"]> inputs.

(** A response that declares 100 bytes and delivers 95, in two chunks. *)
Definition response : DownloadResult :=
  {| statusCode := 200; contentLengthHeader := 100;
     contentType := Some (lit "application/json");
     stream := [replicate 64 Byte.x00; replicate 31 Byte.x00] |}.

Definition forbidden : thrown := ThrownError (new_Error (lit "Forbidden")).

(** Every collaborator answers well, and the object is not there yet. *)
Definition world : World :=
  {| exists_reply := Ok false; download_reply := Ok response;
     write_reply := WriteFinish; storage_class_reply := Ok ();
     metadata_reply := Ok (Some (lit "1700000000000000")) |}.

Definition world_object_exists : World :=
  {| exists_reply := Ok true; download_reply := Ok response;
     write_reply := WriteFinish; storage_class_reply := Ok ();
     metadata_reply := Ok (Some (lit "1700000000000000")) |}.

Definition world_check_fails : World :=
  {| exists_reply := Fail forbidden; download_reply := Ok response;
     write_reply := WriteFinish; storage_class_reply := Ok ();
     metadata_reply := Ok (Some (lit "1700000000000000")) |}.

Definition world_class_update_fails : World :=
  {| exists_reply := Ok false; download_reply := Ok response;
     write_reply := WriteFinish; storage_class_reply := Fail forbidden;
     metadata_reply := Ok (Some (lit "1700000000000000")) |}.

End Sample.

(** ** The calls of an upload *)

(** What a call of an upload may be: a write under the names of the
    options, resumable and with an access preset of the list or none; a
    storage class of the list; a read of the metadata. *)
Definition vetted (options : UploadOptions) (c : call) : Prop :=
  match c with
  | CallWrite b o wo =>
      b = bucket options ∧ o = objectName options ∧ wo_resumable wo = true
      ∧ wo_contentType wo = up_contentType options
      ∧ ∀ a, wo_predefinedAcl wo = Some a → a ∈ validAcls
  | CallSetStorageClass b o sc =>
      b = bucket options ∧ o = objectName options ∧ sc ∈ validClasses
  | CallGetMetadata b o => b = bucket options ∧ o = objectName options
  | _ => False
  end.

(** ** The order of a run *)

(** The first of the required inputs that is missing. *)
Definition first_missing (inp : Inputs) (name : string) : Prop :=
  ∃ before after,
    required = before ++ name :: after
    ∧ Forall (supplied inp) before ∧ ¬ supplied inp name.

Definition is_check (r : call) : bool :=
  match r with CallExists _ _ => true | _ => false end.

(** The calls of a run come in stages: the existence check, the fetch,
    the calls of the upload. *)
Definition staged (cs : list call) : Prop :=
  ∃ checks fetches uploads,
    cs = checks ++ fetches ++ uploads
    ∧ Forall (λ r, is_check r = true) checks
    ∧ Forall (λ r, is_fetch r = true) fetches
    ∧ Forall (λ r, is_upload r = true) uploads
    ∧ (length checks ≤ 1 ∧ length fetches ≤ 1 ∧ length uploads ≤ 3)%nat
    ∧ (uploads ≠ [] → fetches ≠ []).

(** ** More sample runs *)

Module Cases.

(** An upload with an access preset that is not one of the six. *)
Definition options_public : UploadOptions :=
  {| bucket := lit "my-bucket"; objectName := lit "data.json";
     body := [replicate 64 Byte.x00; replicate 31 Byte.x00];
     contentLengthHint := Some 95%Z; up_contentType := None;
     cacheControl := None; metadata := None;
     storageClass := Some (lit "NEARLINE");
     predefinedAcl := Some (lit "public") |}.

(** An upload with no storage class and a valid preset. *)
Definition options_private : UploadOptions :=
  {| bucket := lit "my-bucket"; objectName := lit "data.json";
     body := [replicate 64 Byte.x00; replicate 31 Byte.x00];
     contentLengthHint := Some 95%Z; up_contentType := None;
     cacheControl := None; metadata := None;
     storageClass := None;
     predefinedAcl := Some (lit "private") |}.

Definition reset : thrown := ThrownError (new_Error (lit "socket hang up")).

(** The write stream fails once it has taken the first chunk. *)
Definition world_write_fails : World :=
  {| exists_reply := Ok false; download_reply := Ok Sample.response;
     write_reply := WriteError 1 reset; storage_class_reply := Ok ();
     metadata_reply := Ok (Some (lit "1700000000000000")) |}.

(** The fetch fails. *)
Definition world_fetch_fails : World :=
  {| exists_reply := Ok false; download_reply := Fail reset;
     write_reply := WriteFinish; storage_class_reply := Ok ();
     metadata_reply := Ok (Some (lit "1700000000000000")) |}.

(** The store has no generation to report. *)
Definition world_no_generation : World :=
  {| exists_reply := Ok false; download_reply := Ok Sample.response;
     write_reply := WriteFinish; storage_class_reply := Ok ();
     metadata_reply := Ok None |}.

(** No bucket is given. *)
Definition inputs_no_bucket : Inputs :=
  {[ lit "url" := lit "https://example.com/data.json";
     lit "gcs-object" := lit "downloads/data.json" ]}.

(** The method in small letters, a content type and an access preset. *)
Definition inputs_post : Inputs :=
  <[lit "method" := lit "post"]>
    (<[lit "content-type" := lit "text/csv"]>
       (<[lit "predefined-acl" := lit "private"]> Sample.inputs)).


(** An HTTP client error with a response body of 600 units. *)
Definition long_body : jsstring := replicate 600 120.
Definition server_error : AxiosResponse :=
  {| status := lit "500"; statusText := lit "Internal Server Error";
     headers := None; data := Some long_body |}.
Definition http_error : ErrorObject :=
  {| message := lit "Request failed with status code 500";
     stack := None; code := Some (lit "ERR_BAD_RESPONSE"); errors := None;
     response := Some (Some server_error);
     request := true; config_url := lit "https://example.com/data.json";
     config_method := lit "GET" |}.

End Cases.

(** * Properties *)

(** ** Strings *)

Lemma trimStart_suffix s : ∃ p, s = p ++ trimStart s.
Proof.
  induction s as [|c r [p IH]]; [by exists []|].
  simpl. destruct (is_white_space c).
  - exists (c :: p). simpl. by f_equal.
  - by exists [].
Qed.

Lemma trimStart_length s : (length (trimStart s) ≤ length s)%nat.
Proof.
  destruct (trimStart_suffix s) as [p Hp].
  rewrite Hp at 2. rewrite length_app. lia.
Qed.

Lemma trimEnd_length s : (length (trimEnd s) ≤ length s)%nat.
Proof.
  unfold trimEnd. rewrite length_reverse.
  etrans; [apply trimStart_length|]. by rewrite length_reverse.
Qed.

Lemma trimStart_keep c r :
  is_white_space c = false → trimStart (c :: r) = c :: r.
Proof. intros H. simpl. by rewrite H. Qed.

Lemma trimEnd_keep r c :
  is_white_space c = false → trimEnd (r ++ [c]) = r ++ [c].
Proof.
  intros H. unfold trimEnd. rewrite reverse_snoc, trimStart_keep by done.
  by rewrite reverse_cons, reverse_involutive.
Qed.

(** A string that [trim] leaves alone starts and ends with a unit that is
    not white space. *)
Lemma trim_fixed_head c r :
  trim (c :: r) = c :: r → is_white_space c = false.
Proof.
  intros H. destruct (is_white_space c) eqn:Hc; [|done].
  apply (f_equal length) in H. unfold trim in H. simpl in H.
  rewrite Hc in H.
  pose proof (trimEnd_length (trimStart r)).
  pose proof (trimStart_length r). lia.
Qed.

Lemma suffix_snoc {A} (r p t : list A) c :
  r ++ [c] = p ++ t → t = [] ∨ ∃ t', t = t' ++ [c].
Proof.
  destruct t as [|x t' _] using rev_ind; [by left|].
  rewrite app_assoc. intros [_ <-]%app_inj_tail. right; eauto.
Qed.

Lemma trim_fixed_last r c :
  trim (r ++ [c]) = r ++ [c] → is_white_space c = false.
Proof.
  intros H. destruct (is_white_space c) eqn:Hc; [|done].
  exfalso. unfold trim in H.
  destruct (trimStart_suffix (r ++ [c])) as [p Hp].
  pose proof (trimStart_length (r ++ [c])) as H2.
  destruct (suffix_snoc _ _ _ _ Hp) as [Ht|[t' Ht]]; rewrite Ht in H, H2.
  - unfold trimEnd in H. simpl in H. by destruct r.
  - apply (f_equal length) in H. unfold trimEnd in H.
    rewrite reverse_snoc in H. simpl in H. rewrite Hc in H.
    rewrite length_reverse in H.
    pose proof (trimStart_length (reverse t')) as H1.
    rewrite length_reverse in H1.
    rewrite !length_app in *. simpl in *. lia.
Qed.

Lemma trim_keep s :
  (∀ c r, s = c :: r → is_white_space c = false) →
  (∀ r c, s = r ++ [c] → is_white_space c = false) →
  trim s = s.
Proof.
  intros Hh Hl. unfold trim. destruct s as [|c r]; [done|].
  rewrite trimStart_keep by eauto.
  destruct (exists_last (l := c :: r)) as (t & d & E); [done|].
  rewrite E. apply trimEnd_keep. eauto.
Qed.

Lemma split_no_sep sep s : sep ∉ s → split sep s = [s].
Proof.
  induction s as [|c r IH]; [done|]. intros H.
  apply not_elem_of_cons in H as [Hc Hr]. simpl.
  rewrite bool_decide_eq_false_2 by congruence. by rewrite IH.
Qed.

Lemma split_app sep s t :
  sep ∉ s → split sep (s ++ sep :: t) = s :: split sep t.
Proof.
  induction s as [|c r IH]; intros H; simpl.
  - by rewrite bool_decide_eq_true_2.
  - apply not_elem_of_cons in H as [Hc Hr].
    rewrite bool_decide_eq_false_2 by congruence. by rewrite IH.
Qed.

Lemma indexOf_app c s t : c ∉ s → indexOf c (s ++ c :: t) = Some (length s).
Proof.
  induction s as [|d r IH]; intros H; simpl.
  - by rewrite bool_decide_eq_true_2.
  - apply not_elem_of_cons in H as [Hc Hr].
    rewrite bool_decide_eq_false_2 by congruence. by rewrite IH.
Qed.

(** ** The key-value parser *)

Lemma bind_ret {A B} (a : A) (f : A → M B) st : (mret a ≫= f) st = f a st.
Proof. done. Qed.

Lemma bind_run {A B} (m : M A) (f : A → M B) st :
  (m ≫= f) st = match m st with
                | (Returned a, st') => f a st'
                | (Threw e, st') => (Threw e, st')
                end.
Proof. done. Qed.

Lemma add_logs_nil st : add_logs st [] = st.
Proof. destruct st. unfold add_logs. simpl. by rewrite app_nil_r. Qed.

Lemma add_logs_app st l1 l2 :
  add_logs (add_logs st l1) l2 = add_logs st (l1 ++ l2).
Proof. unfold add_logs. simpl. by rewrite app_assoc. Qed.

Lemma log_add l t st : log l t st = (Returned (), add_logs st [(l, t)]).
Proof. done. Qed.

(** The loop body: the assignment of [pair_of], the warning of [skipped]. *)
Lemma parse_pair_spec name result pair st :
  parse_pair name result pair st
  = (Returned (from_option (assign_pair result) result (pair_of pair)),
     add_logs st (option_list (skipped name pair))).
Proof.
  unfold parse_pair, pair_of, skipped, assign_pair.
  destruct (bool_decide (trim pair = [])) eqn:E.
  - apply bool_decide_eq_true_1 in E. rewrite E. simpl.
    by rewrite add_logs_nil.
  - destruct (indexOf 61 (trim pair)) as [i|]; simpl.
    + clear E. rewrite add_logs_nil. by case_bool_decide.
    + done.
Qed.

Lemma for_of_parse_pair name segs : ∀ acc st,
  for_of (parse_pair name) acc segs st
  = (Returned (foldl assign_pair acc (omap pair_of segs)),
     add_logs st (omap (skipped name) segs)).
Proof.
  induction segs as [|seg segs IH]; intros acc st; simpl.
  - by rewrite add_logs_nil.
  - unfold mbind, M_bind. rewrite parse_pair_spec, IH, add_logs_app.
    destruct (pair_of seg), (skipped name seg); done.
Qed.

Lemma parse_as_pairs_spec name trimmed st :
  parse_as_pairs name trimmed st
  = (Returned
       (let result := foldl assign_pair ∅ (omap pair_of (split 59 trimmed)) in
        if bool_decide (0 < size result)%nat then Some (JObject result)
        else None),
     add_logs st (omap (skipped name) (split 59 trimmed))).
Proof.
  unfold parse_as_pairs, mbind, M_bind. by rewrite for_of_parse_pair.
Qed.

(** The parser returns, and touches nothing but the log. *)
Lemma parseKeyValuePairs_logs input name st :
  ∃ r l, parseKeyValuePairs input name st = (Returned r, add_logs st l).
Proof.
  unfold parseKeyValuePairs. destruct input as [input|].
  2: { exists None, []. by rewrite add_logs_nil. }
  destruct (_ || _).
  { exists None, []. by rewrite add_logs_nil. }
  unfold mbind, M_bind.
  destruct (startsWith 123 (trim input)).
  - unfold parse_as_json. destruct (Json.parse (trim input)) as [v|].
    + destruct (_ || _); simpl.
      * eexists _, _. done.
      * eexists _, []. by rewrite add_logs_nil.
    + simpl. rewrite parse_as_pairs_spec, add_logs_app. by eexists _, _.
  - simpl. rewrite parse_as_pairs_spec. by eexists _, _.
Qed.

(** Keys other than [__proto__]: the last assignment to a key stands. *)
Lemma foldl_assign_plain pairs : ∀ acc,
  Forall (λ kv, kv.1 ≠ lit "__proto__") pairs →
  foldl assign_pair acc pairs
  = foldl (λ m kv, <[kv.1 := JString kv.2]> m) acc pairs.
Proof.
  induction pairs as [|kv pairs IH]; intros acc H; [done|].
  apply Forall_cons in H as [Hk H]. simpl. rewrite <- IH by done.
  unfold assign_pair at 2, assign. by rewrite bool_decide_eq_false_2.
Qed.

Lemma mapping_nonempty pairs : pairs ≠ [] → (0 < size (mapping pairs))%nat.
Proof.
  intros H. destruct (exists_last (l := pairs)) as (ps & p & ->); [done|].
  unfold mapping. rewrite foldl_snoc.
  assert (size (<[p.1 := JString p.2]>
     (foldl (λ m kv, <[kv.1 := JString kv.2]> m) (∅ : gmap jsstring json) ps))
     ≠ 0)%nat; [|lia].
  rewrite map_size_ne_0_lookup. exists p.1. by rewrite lookup_insert_eq.
Qed.

Lemma segment_trimmed kv : plain kv → trim (segment kv) = segment kv.
Proof.
  destruct kv as [k v]. intros [(Hk & Hkt & _) (Hvt & _)]. simpl in *.
  unfold segment. simpl. apply trim_keep.
  - intros c r E. destruct k as [|d k]; [done|].
    simplify_eq/=. by eapply trim_fixed_head.
  - intros r c E. destruct (decide (v = [])) as [->|Hv].
    + apply app_inj_tail in E as [_ <-]. done.
    + destruct (exists_last (l := v)) as (t & d & ->); [done|].
      change (k ++ 61 :: t ++ [d]) with (k ++ (61 :: t) ++ [d]) in E.
      rewrite app_assoc in E. apply app_inj_tail in E as [_ <-].
      by eapply trim_fixed_last.
Qed.

Lemma substring_prefix k t : substring 0 (length k) (k ++ t) = k.
Proof.
  unfold substring. by rewrite Nat.sub_0_r, drop_0, take_app_length.
Qed.

Lemma substring_from_suffix k c t :
  substring_from (S (length k)) (k ++ c :: t) = t.
Proof.
  unfold substring_from. change (k ++ c :: t) with (k ++ [c] ++ t).
  rewrite app_assoc, drop_app_length'; [done|].
  rewrite length_app. simpl. lia.
Qed.

Lemma pair_of_segment kv : plain kv → pair_of (segment kv) = Some kv.
Proof.
  intros Hp. pose proof Hp as [(Hk & Hkt & Heq & _) (Hvt & _)].
  unfold pair_of. rewrite segment_trimmed by done.
  destruct kv as [k v]. unfold segment in *. cbn [fst snd] in *.
  rewrite indexOf_app by done. cbn [mbind option_bind].
  rewrite substring_prefix, substring_from_suffix, Hkt, Hvt.
  by rewrite bool_decide_eq_false_2.
Qed.

Lemma skipped_segment name kv : plain kv → skipped name (segment kv) = None.
Proof.
  intros Hp. pose proof Hp as [(Hk & Hkt & Heq & _) _].
  unfold skipped. rewrite segment_trimmed by done.
  destruct kv as [k v]. unfold segment in *. cbn [fst snd] in *.
  rewrite indexOf_app by done. by case_bool_decide.
Qed.

Lemma segment_no_semicolon kv : plain kv → 59 ∉ segment kv.
Proof.
  intros [(_ & _ & _ & Hk & _) (_ & Hv)]. unfold segment.
  rewrite elem_of_app, elem_of_cons. intros [?|[?|?]]; done.
Qed.

Lemma join_cons sep x y l : join sep (x :: y :: l) = x ++ sep ++ join sep (y :: l).
Proof. done. Qed.

(** The segments of the semicolon form: the first pair as it is, each
    later one after a space. *)
Lemma split_semicolon_form kv pairs :
  Forall plain (kv :: pairs) →
  split 59 (semicolon_form (kv :: pairs))
  = segment kv :: ((λ p, 32 :: segment p) <$> pairs).
Proof.
  revert kv. induction pairs as [|p pairs IH]; intros kv H.
  - apply Forall_cons in H as [H _]. unfold semicolon_form. simpl.
    apply split_no_sep. by apply segment_no_semicolon.
  - apply Forall_cons in H as [Hkv H].
    specialize (IH p H). unfold semicolon_form in *.
    rewrite !fmap_cons, join_cons.
    change (lit "; " ++ ?x) with (59 :: 32 :: x).
    rewrite split_app by by apply segment_no_semicolon.
    f_equal.
    change (split 59 (32 :: ?s)) with
      (match split 59 s with h :: t => (32 :: h) :: t | [] => [[32]] end).
    rewrite !fmap_cons in IH. by rewrite IH.
Qed.

(** ** JSON texts that open with a brace *)

(** A JSON text with every kind of value. *)
Example parse_object :
  Json.parse (quoted "{'a':'1', 'b': [1, true, null, {'c': -2.5e3}]}")
  = Some (JObject {[ lit "a" := JString (lit "1");
                     lit "b" := JArray [JNumber (lit "1"); JBool true; JNull;
                                        JObject {[ lit "c" := JNumber (lit "-2.5e3") ]}] ]}).
Proof. vm_compute. reflexivity. Qed.

Lemma object_root_cons f stk : object_root stk → object_root (f :: stk).
Proof. unfold object_root. destruct stk; [done|]. by rewrite last_cons_cons. Qed.

Lemma object_root_push props key stk :
  stk = [] ∨ object_root stk → object_root (FObject props key :: stk).
Proof. intros [->|H]; [done|]. by apply object_root_cons. Qed.

Lemma object_root_tail f stk :
  object_root (f :: stk) → stk ≠ [] → object_root stk.
Proof. unfold object_root. destruct stk; [done|]. by rewrite last_cons_cons. Qed.

Lemma complete_rooted v stk : object_root stk → rooted (complete v stk).
Proof.
  destruct stk as [|[items|props key] stk]; [done| |]; intros H; simpl.
  - destruct stk; [done|]. by eapply object_root_tail.
  - destruct stk; [by left|]. right. by eapply object_root_tail.
Qed.

Lemma complete_object_rooted props stk :
  stk = [] ∨ object_root stk → rooted (complete (JObject props) stk).
Proof. intros [->|H]; [by eexists|]. by apply complete_rooted. Qed.

Ltac rooted_solve :=
  first [ done
        | by apply complete_rooted
        | by apply complete_object_rooted
        | by apply object_root_cons
        | by apply object_root_push
        | by right; apply object_root_cons
        | by right
        | by apply complete_rooted, object_root_cons ].

Lemma value_step_rooted t stk st :
  object_root stk → value_step t stk = Some st → rooted st.
Proof. intros H E. destruct t; simplify_eq/=; rooted_solve. Qed.

Lemma step_rooted st t st' : rooted st → step st t = Some st' → rooted st'.
Proof.
  intros H E. destruct st; simpl in H.
  - by eapply value_step_rooted.
  - destruct t; simplify_eq/=; rooted_solve.
  - destruct t; simplify_eq/=; rooted_solve.
  - destruct t; simplify_eq/=; rooted_solve.
  - destruct t; simplify_eq/=; rooted_solve.
  - destruct t; simplify_eq/=; rooted_solve.
  - destruct t; simplify_eq/=; rooted_solve.
  - done.
Qed.

Lemma steps_rooted ts : ∀ st st',
  rooted st → steps st ts = Some st' → rooted st'.
Proof.
  induction ts as [|t ts IH]; intros st st' H E; simplify_eq/=; [done|].
  destruct (step st t) as [st1|] eqn:E1; simplify_eq/=.
  eapply IH; [|done]. by eapply step_rooted.
Qed.

(** A text that opens with a brace parses to an object or not at all. *)
Lemma parse_brace_object text v :
  startsWith 123 text = true → Json.parse text = Some v →
  ∃ props, v = JObject props.
Proof.
  destruct text as [|c r]; [done|]. simpl. intros ->%bool_decide_eq_true_1.
  unfold Json.parse.
  change (lex LIdle (123 :: r)) with ((TLBrace ::.) <$> lex LIdle r).
  destruct (lex LIdle r) as [ts|]; [|done]. simpl.
  destruct (steps (PObjectStart []) ts) as [st|] eqn:E; [|done]. simpl.
  assert (rooted st) as H by (eapply steps_rooted; [|done]; by left).
  destruct st; try done. simpl in H. by intros [= <-].
Qed.

(** ** Claims about the key-value parser *)

(** The check of the parsed value, as the [try] block makes it. *)
Lemma parse_as_json_parsed name trimmed v st :
  Json.parse trimmed = Some v →
  parse_as_json name trimmed st
  = if negb (typeof_is_object v) || isArray v
    then (Returned (Some None),
          add_logs st [(Warning, Text (name ++ lit " must be a JSON object"))])
    else (Returned (Some (Some v)), st).
Proof. intros E. unfold parse_as_json. rewrite E. by destruct (_ || _). Qed.

Lemma semicolon_form_head kv pairs :
  ∃ t, semicolon_form (kv :: pairs) = segment kv ++ t.
Proof.
  unfold semicolon_form. destruct pairs as [|p pairs].
  - exists []. simpl. by rewrite app_nil_r.
  - rewrite !fmap_cons, join_cons. by eexists.
Qed.

Lemma semicolon_form_last pairs kv :
  ∃ t, semicolon_form (pairs ++ [kv]) = t ++ segment kv.
Proof.
  unfold semicolon_form. induction pairs as [|p pairs [t IH]].
  - by exists [].
  - rewrite <- app_comm_cons, fmap_cons.
    destruct (pairs ++ [kv]) as [|q qs] eqn:E; [by destruct pairs|].
    rewrite fmap_cons, join_cons, <- fmap_cons, IH.
    exists (segment p ++ lit "; " ++ t). by rewrite <- !app_assoc.
Qed.

Lemma segment_head kv :
  plain kv →
  ∃ c r, segment kv = c :: r ∧ is_white_space c = false ∧ c ≠ 123.
Proof.
  destruct kv as [k v]. intros [(Hk & Hkt & _ & _ & Hb & _) _].
  simpl in *. destruct k as [|c k]; [done|]. exists c, (k ++ 61 :: v).
  split_and!; [done|by eapply trim_fixed_head|].
  simpl in Hb. by apply bool_decide_eq_false_1 in Hb.
Qed.

Lemma segment_last kv :
  plain kv → ∃ r c, segment kv = r ++ [c] ∧ is_white_space c = false.
Proof.
  intros Hp. pose proof (segment_trimmed kv Hp) as Hs.
  destruct (exists_last (l := segment kv)) as (r & c & E).
  { unfold segment. by destruct kv.1. }
  exists r, c. split; [done|]. rewrite E in Hs. by eapply trim_fixed_last.
Qed.

(** The semicolon form of plain pairs has no white space around it and
    no brace in front. *)
Lemma semicolon_form_trimmed pairs :
  pairs ≠ [] → Forall plain pairs →
  trim (semicolon_form pairs) = semicolon_form pairs
  ∧ semicolon_form pairs ≠ []
  ∧ startsWith 123 (semicolon_form pairs) = false.
Proof.
  intros Hne Hp.
  assert (∃ q t', plain q ∧ semicolon_form pairs = t' ++ segment q)
    as (q & t' & Hq & Hl).
  { destruct (exists_last Hne) as (ps & q & ->).
    destruct (semicolon_form_last ps q) as [t' Ht'].
    apply Forall_app in Hp as [_ [Hq _]%Forall_cons]. eauto. }
  destruct pairs as [|kv pairs]; [done|].
  apply Forall_cons in Hp as [Hkv _].
  destruct (semicolon_form_head kv pairs) as [t Ht].
  destruct (segment_head kv Hkv) as (c & r & Ec & Hc & Hb).
  destruct (segment_last q Hq) as (r' & d & Ed & Hd).
  revert Ht Hl. generalize (semicolon_form (kv :: pairs)). intros s -> Hl.
  rewrite Ec in *. split_and!; [|done|].
  - apply trim_keep.
    + by intros ?? [= <- _].
    + intros r0 d0 E. rewrite Hl, Ed, app_assoc in E.
      by apply app_inj_tail in E as [_ <-].
  - simpl. by rewrite bool_decide_eq_false_2.
Qed.

Lemma pair_of_spaced s : pair_of (32 :: s) = pair_of s.
Proof. done. Qed.

Lemma skipped_spaced name s : skipped name (32 :: s) = skipped name s.
Proof. done. Qed.

Lemma omap_pair_of_spaced pairs :
  Forall plain pairs →
  omap pair_of ((λ p, 32 :: segment p) <$> pairs) = pairs.
Proof.
  induction 1 as [|p ps Hq _ IH]; [done|].
  rewrite fmap_cons. cbn [omap list_omap].
  rewrite pair_of_spaced, pair_of_segment by done. by f_equal.
Qed.

Lemma omap_skipped_spaced name pairs :
  Forall plain pairs →
  omap (skipped name) ((λ p, 32 :: segment p) <$> pairs) = [].
Proof.
  induction 1 as [|p ps Hq _ IH]; [done|].
  rewrite fmap_cons. cbn [omap list_omap].
  by rewrite skipped_spaced, skipped_segment.
Qed.

(** C7. An input of the semicolon form [k1=v1; k2=v2; ...] yields the
    mapping of its pairs, so ["a=1; b=2"] yields [{a:"1", b:"2"}]; the JSON
    text [{"a":"1"}] yields the same mapping as ["a=1"]; and an input that
    opens with a brace and is not valid JSON is parsed in the semicolon
    format, after a warning, instead of failing: the parser returns. *)
Theorem parseKeyValuePairs_forms :
  (∀ pairs name st,
     pairs ≠ [] → Forall plain pairs →
     parseKeyValuePairs (Some (semicolon_form pairs)) name st
     = (Returned (Some (JObject (mapping pairs))), st))
  ∧ (∀ name st,
       parseKeyValuePairs (Some (lit "a=1; b=2")) name st
       = (Returned (Some (JObject {[ lit "a" := JString (lit "1");
                                     lit "b" := JString (lit "2") ]})), st))
  ∧ (∀ name st,
       parseKeyValuePairs (Some (quoted "{'a':'1'}")) name st
       = parseKeyValuePairs (Some (lit "a=1")) name st
       ∧ parseKeyValuePairs (Some (lit "a=1")) name st
         = (Returned (Some (JObject {[ lit "a" := JString (lit "1") ]})), st))
  ∧ (∀ input name st,
       startsWith 123 (trim input) = true → Json.parse (trim input) = None →
       parseKeyValuePairs (Some input) name st
       = parse_as_pairs name (trim input)
           (add_logs st
              [(Warning, TextSyntaxError (lit "Failed to parse " ++ name
                                          ++ lit " as JSON: "))])
       ∧ ∃ r l, parseKeyValuePairs (Some input) name st
                = (Returned r, add_logs st l)).
Proof.
  split_and!.
  - intros pairs name st Hne Hp.
    destruct (semicolon_form_trimmed pairs Hne Hp) as (Ht & Hn & Hb).
    unfold parseKeyValuePairs. rewrite Ht, Hb.
    rewrite (bool_decide_eq_false_2 _ Hn). cbn [orb].
    rewrite bind_ret, parse_as_pairs_spec.
    destruct pairs as [|kv pairs]; [done|].
    rewrite split_semicolon_form by done.
    pose proof Hp as [Hkv Hps]%Forall_cons.
    cbn [omap list_omap].
    rewrite pair_of_segment, skipped_segment by done.
    fold (omap pair_of ((λ p, 32 :: segment p) <$> pairs)).
    fold (omap (skipped name) ((λ p, 32 :: segment p) <$> pairs)).
    rewrite omap_pair_of_spaced, omap_skipped_spaced by done.
    rewrite add_logs_nil, foldl_assign_plain.
    2: { eapply Forall_impl; [done|]. by intros ? [(_ & _ & _ & _ & _ & ?) _]. }
    fold (mapping (kv :: pairs)). cbv zeta.
    by rewrite bool_decide_eq_true_2 by by apply mapping_nonempty.
  - intros name st. vm_compute. reflexivity.
  - intros name st. split; vm_compute; reflexivity.
  - intros input name st Hb Hp. split; [|apply parseKeyValuePairs_logs].
    unfold parseKeyValuePairs.
    assert (trim input ≠ []) as Hn by (by destruct (trim input)).
    assert (input ≠ []) as Hi by (by intros ->).
    rewrite (bool_decide_eq_false_2 _ Hn), (bool_decide_eq_false_2 _ Hi), Hb.
    cbn [orb]. unfold parse_as_json. rewrite Hp. done.
Qed.

Lemma plain_a1_b2 :
  Forall plain [(lit "a", lit "1"); (lit "b", lit "2")].
Proof.
  repeat apply Forall_cons_2; [..|by apply Forall_nil_2];
    unfold plain, plain_key, plain_value; cbn [fst snd]; split_and!;
    first [ by vm_compute | apply (bool_decide_unpack _); by vm_compute ].
Qed.

Lemma parseKeyValuePairs_forms_witness :
  parseKeyValuePairs (Some (semicolon_form [(lit "a", lit "1");
                                            (lit "b", lit "2")]))
    (lit "headers") initial
  = (Returned (Some (JObject (mapping [(lit "a", lit "1");
                                       (lit "b", lit "2")]))), initial)
  ∧ parseKeyValuePairs (Some (lit "{a=1; b=2")) (lit "headers") initial
    = parse_as_pairs (lit "headers") (trim (lit "{a=1; b=2"))
        (add_logs initial
           [(Warning, TextSyntaxError (lit "Failed to parse " ++ lit "headers"
                                       ++ lit " as JSON: "))]).
Proof.
  split.
  - apply (proj1 parseKeyValuePairs_forms); [done|apply plain_a1_b2].
  - apply (proj2 (proj2 (proj2 parseKeyValuePairs_forms))); reflexivity.
Defined.

(** The input [{a=1; b=2] is not JSON: it is read as the pairs [{a=1] and
    [b=2], after the warning. *)
Example parseKeyValuePairs_fallback :
  parseKeyValuePairs (Some (lit "{a=1; b=2")) (lit "headers") initial
  = (Returned (Some (JObject {[ lit "{a" := JString (lit "1");
                                lit "b" := JString (lit "2") ]})),
     add_logs initial
       [(Warning, TextSyntaxError (lit "Failed to parse headers as JSON: "))]).
Proof. vm_compute. reflexivity. Qed.

(** C8, as stated, fails: the JSON text [{"a":{"b":"c"}}] parses to an
    object that is not flat, and the parser returns it as it is, with no
    warning. *)
Lemma parseKeyValuePairs_nested_accepted :
  let input := quoted "{'a':{'b':'c'}}" in
  let v := JObject {[ lit "a" := JObject {[ lit "b" := JString (lit "c") ]} ]} in
  startsWith 123 (trim input) = true
  ∧ Json.parse (trim input) = Some v
  ∧ ¬ flat v
  ∧ parseKeyValuePairs (Some input) (lit "metadata") initial
    = (Returned (Some v), initial).
Proof.
  split_and!; try (vm_compute; reflexivity).
  intros (props & [= <-] & H).
  by apply (H (lit "a") (JObject {[ lit "b" := JString (lit "c") ]})).
Qed.

(** C8, amended. For an input whose trimmed form opens with a brace and
    parses as JSON, the parser checks that the parsed value has type object
    and is not an array, and nothing of its values: a value that fails the
    check gets a warning and the parser returns absent; a text that opens
    with a brace parses to an object, so the check passes and the parsed
    value is returned as it is, with no warning. *)
Theorem parseKeyValuePairs_json input name st v :
  startsWith 123 (trim input) = true →
  Json.parse (trim input) = Some v →
  (∀ trimmed v',
     Json.parse trimmed = Some v' →
     typeof_is_object v' = false ∨ isArray v' = true →
     parse_as_json name trimmed st
     = (Returned (Some None),
        add_logs st [(Warning, Text (name ++ lit " must be a JSON object"))]))
  ∧ (∃ props, v = JObject props)
  ∧ parseKeyValuePairs (Some input) name st = (Returned (Some v), st).
Proof.
  intros Hb Hp. split_and!.
  - intros trimmed v' Hp' Hv. rewrite (parse_as_json_parsed _ _ v') by done.
    by destruct Hv as [-> | ->]; [|rewrite orb_true_r].
  - by eapply parse_brace_object.
  - destruct (parse_brace_object _ _ Hb Hp) as [props ->].
    unfold parseKeyValuePairs.
    assert (trim input ≠ []) as Hn by (by destruct (trim input)).
    assert (input ≠ []) as Hi by (by intros ->).
    rewrite (bool_decide_eq_false_2 _ Hn), (bool_decide_eq_false_2 _ Hi), Hb.
    cbn [orb]. rewrite bind_run, (parse_as_json_parsed _ _ (JObject props)) by done.
    done.
Qed.

Lemma parseKeyValuePairs_json_witness :
  parseKeyValuePairs (Some (quoted "{'a':{'b':'c'}}")) (lit "metadata")
    initial
  = (Returned (Some (JObject {[ lit "a" :=
                                  JObject {[ lit "b" := JString (lit "c") ]} ]})),
     initial).
Proof.
  apply (parseKeyValuePairs_json (quoted "{'a':{'b':'c'}}")
           (lit "metadata") initial); vm_compute; reflexivity.
Defined.

(** Keys other than [__proto__]: the value of the last pair stands. *)
Lemma foldl_assign_lookup key pairs : ∀ acc,
  key ≠ lit "__proto__" →
  foldl assign_pair acc pairs !! key
  = match last_value key pairs with
    | Some v => Some (JString v)
    | None => acc !! key
    end.
Proof.
  intros acc Hk. revert acc.
  induction pairs as [|[k v] pairs IH] using rev_ind; intros acc; [done|].
  rewrite foldl_snoc. unfold last_value. rewrite filter_app, filter_cons.
  unfold assign_pair at 1, assign. cbn [fst snd].
  rewrite filter_nil. case_decide as Ek.
  - subst k. rewrite bool_decide_eq_false_2 by done.
    by rewrite last_snoc, lookup_insert_eq.
  - rewrite app_nil_r. fold (last_value key pairs).
    case_bool_decide; [by apply IH|].
    rewrite lookup_insert_ne by done. by apply IH.
Qed.

(** In the semicolon format a key other than [__proto__] has the value of
    its last pair, and no key has more than one value. *)
Lemma last_pair_wins name trimmed st key :
  key ≠ lit "__proto__" →
  ∃ r l,
    parse_as_pairs name trimmed st = (Returned r, add_logs st l)
    ∧ property r key
      = JString <$> last_value key (omap pair_of (split 59 trimmed)).
Proof.
  intros Hk. rewrite parse_as_pairs_spec. eexists _, _. split; [done|].
  cbv zeta. pose proof (foldl_assign_lookup key
    (omap pair_of (split 59 trimmed)) ∅ Hk) as H.
  rewrite lookup_empty in H.
  case_bool_decide as Hs; cbn [property].
  - rewrite H. by destruct (last_value _ _).
  - assert (foldl assign_pair ∅ (omap pair_of (split 59 trimmed)) = ∅) as E
      by (apply map_size_empty_iff; lia).
    rewrite E, lookup_empty in H. by destruct (last_value _ _).
Qed.

(** C9 at the key [__proto__]: the pairs [__proto__=1; __proto__=2] leave
    no property, and the parser returns absent; beside another pair, the
    key is missing from the mapping. *)
Theorem parseKeyValuePairs_proto_lost name st :
  parseKeyValuePairs (Some (lit "__proto__=1; __proto__=2")) name st
  = (Returned None, st)
  ∧ parseKeyValuePairs (Some (lit "a=0; __proto__=1; __proto__=2")) name st
    = (Returned (Some (JObject {[ lit "a" := JString (lit "0") ]})), st)
  ∧ last_value (lit "__proto__")
      (omap pair_of (split 59 (lit "__proto__=1; __proto__=2")))
    = Some (lit "2").
Proof. split_and!; vm_compute; reflexivity. Qed.

(** ** The run *)

Lemma getRequiredInput_supplied inp name st :
  supplied inp name →
  getRequiredInput inp name st = (Returned (getInput inp name), st).
Proof.
  intros H. unfold getRequiredInput. by rewrite bool_decide_eq_false_2.
Qed.

Lemma getRequiredInput_missing inp name st :
  ¬ supplied inp name →
  getRequiredInput inp name st
  = (Threw (ThrownError (new_Error
       (lit "Input required and not supplied: " ++ lit name))), st).
Proof.
  intros H. unfold getRequiredInput. rewrite bool_decide_eq_true_2; [done|].
  unfold supplied in H. by destruct (decide (default [] (inp !! lit name) = [])).
Qed.

(** With the required inputs given, the settings are read, and only the
    warnings of the two parsers are logged. *)
Lemma read_settings_supplied inp st :
  supplied inp "url" → supplied inp "gcs-bucket" → supplied inp "gcs-object" →
  ∃ h m l,
    read_settings inp st
    = (Returned (settings_of inp (getInput inp "url")
                   (getInput inp "gcs-bucket") (getInput inp "gcs-object")
                   h m),
       add_logs st l).
Proof.
  intros Hu Hb Ho. unfold read_settings.
  rewrite bind_run, getRequiredInput_supplied by done.
  rewrite bind_run, getRequiredInput_supplied by done.
  rewrite bind_run, getRequiredInput_supplied by done.
  unfold parseHeaders, parseMetadata.
  destruct (parseKeyValuePairs_logs (Some (getInput inp "headers"))
              (lit "headers") st) as (h & l1 & E1).
  rewrite bind_run, E1.
  destruct (parseKeyValuePairs_logs (Some (getInput inp "metadata"))
              (lit "metadata") (add_logs st l1)) as (m & l2 & E2).
  rewrite bind_run, E2, add_logs_app. by eexists _, _, _.
Qed.

(** *** States *)

Lemma extend_extend st l1 c1 n1 l2 c2 n2 :
  extend (extend st l1 c1 n1) l2 c2 n2
  = extend st (l1 ++ l2) (c1 ++ c2) (n1 + n2).
Proof. unfold extend. simpl. by rewrite !app_assoc, N.add_assoc. Qed.

Lemma extend_nil st : extend st [] [] 0 = st.
Proof.
  destruct st. unfold extend. simpl. by rewrite !app_nil_r, N.add_0_r.
Qed.

Lemma add_logs_extend st l : add_logs st l = extend st l [] 0.
Proof. unfold add_logs, extend. by rewrite app_nil_r, N.add_0_r. Qed.

(** *** The body stream *)

Lemma total_cons c cs :
  ByteCountingStream.total (c :: cs)
  = N.of_nat (length c) + ByteCountingStream.total cs.
Proof. done. Qed.

Lemma flow_from cs : ∀ uploadedBytes st,
  for_of (λ uploadedBytes c,
            c' ← ByteCountingStream.pass c; on_data uploadedBytes c')
    uploadedBytes cs st
  = (Returned (uploadedBytes + ByteCountingStream.total cs),
     extend st (progress uploadedBytes cs) [] (ByteCountingStream.total cs)).
Proof.
  induction cs as [|c cs IH]; intros u st.
  - simpl. by rewrite N.add_0_r, extend_nil.
  - cbn [for_of]. rewrite bind_run, bind_run.
    unfold ByteCountingStream.pass at 1. cbn iota beta.
    unfold on_data at 1. rewrite bind_run, total_cons.
    cbn [progress].
    destruct (_ || _); cbn [when]; unfold info, mret, M_ret;
      rewrite ?log_add; cbn iota beta; rewrite IH;
      (f_equal; [f_equal; lia|]);
      unfold extend, add_logs; cbn; f_equal; rewrite <- ?app_assoc; try done;
      lia.
Qed.

(** The whole body through the counting stream: the counter grows by the
    length of the body. *)
Lemma flow_spec cs st :
  flow cs st
  = (Returned (ByteCountingStream.total cs),
     extend st (progress 0 cs) [] (ByteCountingStream.total cs)).
Proof. unfold flow. by rewrite flow_from. Qed.

(** *** The paths of the upload *)

Lemma validateStorageClass_spec sc st :
  validateStorageClass sc st
  = match truthy_value sc with
    | Some c => if bool_decide (c ∈ validClasses)
                then (Returned (Some c), st) else (Threw (invalid_class c), st)
    | None => (Returned None, st)
    end.
Proof.
  unfold validateStorageClass. destruct sc as [[|c s]|]; try done.
  cbn [truthy_value]. rewrite bool_decide_eq_false_2 by done.
  by case_bool_decide.
Qed.

Lemma validatePredefinedAcl_spec acl st :
  validatePredefinedAcl acl st
  = match truthy_value acl with
    | Some a => if bool_decide (a ∈ validAcls)
                then (Returned (Some a), st) else (Threw (invalid_acl a), st)
    | None => (Returned None, st)
    end.
Proof.
  unfold validatePredefinedAcl. destruct acl as [[|c s]|]; try done.
  cbn [truthy_value]. rewrite bool_decide_eq_false_2 by done.
  by case_bool_decide.
Qed.

Lemma info_run s st : info s st = (Returned (), add_logs st [(Info, Text s)]).
Proof. done. Qed.

(** *** Computations that only log *)

Lemma logs_only_ret {A} (a : A) : logs_only (mret a).
Proof. intros st. exists a, []. by rewrite add_logs_nil. Qed.

Lemma logs_only_log l t : logs_only (log l t).
Proof. intros st. by eexists _, _. Qed.

Lemma logs_only_bind {A B} (m : M A) (f : A → M B) :
  logs_only m → (∀ a, logs_only (f a)) → logs_only (m ≫= f).
Proof.
  intros Hm Hf st. destruct (Hm st) as (a & l & E). rewrite bind_run, E.
  destruct (Hf a (add_logs st l)) as (b & l' & ->).
  rewrite add_logs_app. by eexists _, _.
Qed.

Lemma logs_only_when b m : logs_only m → logs_only (when b m).
Proof. destruct b; [done|]. intros _. apply logs_only_ret. Qed.

Lemma logs_only_if_truthy o f :
  (∀ s, logs_only (f s)) → logs_only (if_truthy o f).
Proof.
  intros H. destruct o as [[|c s]|]; simpl;
    [apply logs_only_ret|apply H|apply logs_only_ret].
Qed.

Ltac logs_tac :=
  unfold info, warning, error;
  repeat first
    [ progress intros
    | apply logs_only_bind
    | apply logs_only_when
    | apply logs_only_if_truthy
    | apply logs_only_log
    | apply logs_only_ret
    | match goal with
      | |- logs_only (match ?x with _ => _ end) => destruct x
      | |- logs_only (if ?b then _ else _) => destruct b
      end ].

Lemma log_parameters_logs options uploadOptions storageClass predefinedAcl :
  logs_only (log_parameters options uploadOptions storageClass predefinedAcl).
Proof. unfold log_parameters. logs_tac. Qed.

Lemma fails_with_setFailed msg : fails_with msg (setFailed msg).
Proof. intros st. by exists [(Error, Text msg)]. Qed.

Lemma fails_with_bind {A} msg (m : M A) (f : A → M ()) :
  logs_only m → (∀ a, fails_with msg (f a)) → fails_with msg (m ≫= f).
Proof.
  intros Hm Hf st. destruct (Hm st) as (a & l & E). rewrite bind_run, E.
  destruct (Hf a (add_logs st l)) as (l' & ->).
  rewrite add_logs_app. by eexists.
Qed.

(** The [catch] block of [run] logs, and gives the failure signal. *)
Lemma report_fails err : fails_with (failure_message err) (report err).
Proof.
  unfold report. apply fails_with_bind; [logs_tac|]. intros _.
  destruct err as [e|ty v]; cbn [failure_message].
  - repeat (apply fails_with_bind; [logs_tac|intros _]).
    apply fails_with_setFailed.
  - repeat (apply fails_with_bind; [logs_tac|intros _]).
    apply fails_with_setFailed.
Qed.

Lemma info_extend s st : info s st = (Returned (), extend st [(Info, Text s)] [] 0).
Proof. by rewrite info_run, add_logs_extend. Qed.

Lemma send_extend r st : send r st = (Returned (), extend st [] [r] 0).
Proof. unfold send, extend. by rewrite app_nil_r, N.add_0_r. Qed.

Lemma ask_extend {A} r (answer : reply A) st :
  ask r answer st
  = (match answer with Ok a => Returned a | Fail e => Threw e end,
     extend st [] [r] 0).
Proof.
  unfold ask. rewrite bind_run, send_extend. by destruct answer.
Qed.

Lemma truthy_value_cons o sc :
  truthy_value o = Some sc → ∃ c s, sc = c :: s.
Proof. destruct o as [[|c s]|]; intros [= <-]; eauto. Qed.

Lemma validateStorageClass_cases options st :
  (∃ sc, truthy_value (storageClass options) = Some sc ∧ (sc ∉ validClasses)
         ∧ validateStorageClass (storageClass options) st
           = (Threw (invalid_class sc), st))
  ∨ (class_ok options
     ∧ validateStorageClass (storageClass options) st
       = (Returned (truthy_value (storageClass options)), st)).
Proof.
  rewrite validateStorageClass_spec. unfold class_ok.
  destruct (truthy_value (storageClass options)) as [sc|]; [|by right].
  case_bool_decide; [right|left; eauto]. split; [|done]. by intros ? [= <-].
Qed.

Lemma validatePredefinedAcl_cases options st :
  (∃ a, truthy_value (predefinedAcl options) = Some a ∧ (a ∉ validAcls)
        ∧ validatePredefinedAcl (predefinedAcl options) st
          = (Threw (invalid_acl a), st))
  ∨ (acl_ok options
     ∧ validatePredefinedAcl (predefinedAcl options) st
       = (Returned (truthy_value (predefinedAcl options)), st)).
Proof.
  rewrite validatePredefinedAcl_spec. unfold acl_ok.
  destruct (truthy_value (predefinedAcl options)) as [a|]; [|by right].
  case_bool_decide; [right|left; eauto]. split; [|done]. by intros ? [= <-].
Qed.

(** Brings the lists and the counts of a state to their plain form. *)
Ltac tidy :=
  cbn [app]; rewrite ?app_nil_r, ?N.add_0_r, ?N.add_0_l; cbn [app].

(** The [try] block and its [catch], once the options are valid. *)
Lemma write_object_sound w options st :
  class_ok options → acl_ok options →
  ∃ l o cs n,
    try_catch
      (write_object w options
         (prepare options (truthy_value (predefinedAcl options)))
         (truthy_value (storageClass options)))
      (λ error, throw (rethrown error)) st
    = (o, extend st l cs n)
    ∧ uploads w options o cs n.
Proof.
  intros Hc Ha. unfold try_catch, write_object, pipe.
  rewrite bind_run, info_extend, bind_run, send_extend, extend_extend.
  fold (write_call options). fold (metadata_call options).
  destruct (write_reply w) as [|taken e] eqn:Ew.
  - rewrite !bind_run, flow_spec, extend_extend.
    unfold mret at 1, M_ret at 1. cbn iota beta.
    assert (∃ l' (o' : outcome ()),
      (∀ st', if_truthy (truthy_value (storageClass options))
                (λ c, ask (CallSetStorageClass (bucket options)
                             (objectName options) c) (storage_class_reply w))
                st'
              = (o', extend st' l' (class_calls options) 0))
      ∧ match o' with
        | Returned _ => truthy_value (storageClass options) = None
                        ∨ storage_class_reply w = Ok ()
        | Threw e => ∃ sc, truthy_value (storageClass options) = Some sc
                           ∧ storage_class_reply w = Fail e
        end) as (l' & o' & Hrun & Ho').
    { unfold class_calls.
      destruct (truthy_value (storageClass options)) as [sc|] eqn:Esc.
      - destruct (truthy_value_cons _ _ Esc) as (c & r & ->).
        cbn [if_truthy]. exists [].
        destruct (storage_class_reply w) as [[]|e] eqn:Es;
          [exists (Returned ())|exists (Threw e)];
          (split; [intros st'; by rewrite ask_extend|eauto]).
      - exists [], (Returned ()). split; [|eauto]. intros st'.
        cbn [if_truthy]. unfold mret, M_ret. by rewrite extend_nil. }
    rewrite bind_run, Hrun, extend_extend.
    destruct o' as [[]|e].
    + rewrite bind_run, ask_extend, extend_extend.
      destruct (metadata_reply w) as [g|e] eqn:Em.
      * rewrite bind_run, info_extend, bind_run, info_extend, !extend_extend.
        unfold mret, M_ret.
        eexists _, _, _, _. split; [reflexivity|]. tidy.
        by apply uploads_done.
      * eexists _, _, _, _. split; [reflexivity|]. tidy.
        by apply uploads_metadata_error.
    + destruct Ho' as (sc & Esc & Es).
      eexists _, _, _, _. split; [reflexivity|]. tidy.
      by eapply uploads_class_error.
  - rewrite !bind_run, flow_spec, extend_extend. unfold throw.
    eexists _, _, _, _. split; [reflexivity|]. tidy.
    by apply uploads_write_error.
Qed.

(** Every upload follows one of the paths of [uploads], and sets no output
    and no failure signal. *)
Lemma upload_sound w options st :
  ∃ l o cs n,
    uploadStreamToGCS w options st = (o, extend st l cs n)
    ∧ uploads w options o cs n.
Proof.
  unfold uploadStreamToGCS. rewrite bind_run, info_extend, bind_run.
  destruct (validateStorageClass_cases options
              (extend st [(Info, Text (lit "Uploading to GCS: gs://"
                 ++ bucket options ++ lit "/" ++ objectName options))] [] 0))
    as [(sc & Esc & Hsc & ->)|[Hc ->]].
  { eexists _, _, _, _. split; [reflexivity|]. by eapply uploads_bad_class. }
  rewrite bind_run.
  destruct (validatePredefinedAcl_cases options
              (extend st [(Info, Text (lit "Uploading to GCS: gs://"
                 ++ bucket options ++ lit "/" ++ objectName options))] [] 0))
    as [(a & Ea & Hacl & ->)|[Ha ->]].
  { eexists _, _, _, _. split; [reflexivity|]. by eapply uploads_bad_acl. }
  cbv zeta. rewrite bind_run.
  destruct (log_parameters_logs options
              (prepare options (truthy_value (predefinedAcl options)))
              (truthy_value (storageClass options))
              (truthy_value (predefinedAcl options))
              (extend st [(Info, Text (lit "Uploading to GCS: gs://"
                 ++ bucket options ++ lit "/" ++ objectName options))] [] 0))
    as ([] & l & ->).
  rewrite add_logs_extend, extend_extend.
  destruct (write_object_sound w options
              (extend st ([(Info, Text (lit "Uploading to GCS: gs://"
                 ++ bucket options ++ lit "/" ++ objectName options))] ++ l)
                 ([] ++ []) (0 + 0)) Hc Ha) as (l' & o & cs & n & -> & Hu).
  rewrite extend_extend. by eexists _, _, _, _.
Qed.

(** *** The paths of the run *)

Lemma setOutput_run name value st :
  setOutput name value st = (Returned (), with_outputs st [(name, value)]).
Proof. done. Qed.

Lemma with_outputs_app st o1 o2 :
  with_outputs (with_outputs st o1) o2 = with_outputs st (o1 ++ o2).
Proof. unfold with_outputs. simpl. by rewrite app_assoc. Qed.

Lemma extend_with_outputs st outs l cs n :
  extend (with_outputs st outs) l cs n = with_outputs (extend st l cs n) outs.
Proof. done. Qed.

(** One statement of a computation: the bind, and the primitive at its
    head. *)
Ltac run_step :=
  rewrite bind_run;
  first [ rewrite info_extend | rewrite setOutput_run | rewrite send_extend
        | rewrite ask_extend ];
  cbn iota beta.

Ltac run_steps :=
  repeat run_step;
  rewrite ?info_extend, ?extend_with_outputs, ?with_outputs_app,
    ?extend_extend;
  unfold mret, M_ret, throw; tidy.

Lemma skip_if_exists_sound w s st :
  ∃ l, let st' := extend st l [CallExists (s_gcsBucket s) (s_gcsObject s)] 0 in
    skip_if_exists w s st
    = match exists_reply w with
      | Ok true => (Returned true, with_outputs st' (skipped_outputs s))
      | Ok false => (Returned false, st')
      | Fail e => (Threw e, st')
      end.
Proof.
  unfold skip_if_exists, objectExists, try_catch.
  run_step. rewrite bind_run, ask_extend.
  destruct (exists_reply w) as [[|]|e]; cbn iota beta; run_steps; by eexists.
Qed.

Lemma relay_sound w s st :
  match download_reply w with
  | Fail e =>
      ∃ l, relay w s st
           = (Threw e, extend st l [CallFetch (download_options s)] 0)
  | Ok dr =>
      ∃ l o cs n,
        uploads w (upload_options s dr) o cs n
        ∧ let st' := extend st l (CallFetch (download_options s) :: cs) n in
          match o with
          | Threw e => relay w s st = (Threw e, st')
          | Returned r =>
              relay w s st
              = (Returned (),
                 with_outputs st'
                   (transfer_outputs dr (bytesTransferred st + n) r))
              ∧ ((0 < contentLengthHeader dr)%Z →
                 Z.of_N (bytesTransferred st + n) ≠ contentLengthHeader dr →
                 (Warning, Text (discrepancy (bytesTransferred st + n)
                                   (contentLengthHeader dr))) ∈ l)
          end
  end.
Proof.
  unfold relay, downloadAsStream.
  run_step. rewrite bind_run, ask_extend.
  destruct (download_reply w) as [dr|e]; cbn iota beta.
  2: { run_steps. by eexists. }
  run_step. rewrite bind_run, !extend_extend. tidy.
  match goal with
  | |- context [uploadStreamToGCS w ?o ?st0] =>
      destruct (upload_sound w o st0) as (l & out & cs & n & E & Hu)
  end.
  rewrite E, extend_extend. tidy.
  destruct out as [r|e]; [|by eexists _, (Threw e), cs, n].
  run_step. rewrite bind_run.
  unfold ByteCountingStream.getBytesTransferred. cbn iota beta.
  run_step. rewrite extend_extend. cbn [bytesTransferred extend]. tidy.
  rewrite bind_run.
  destruct (_ && _) eqn:Ec; cbn [when].
  - unfold warning. rewrite log_add, add_logs_extend, extend_extend.
    cbn iota beta. run_steps.
    eexists _, (Returned r), cs, n. split; [done|]. split; [reflexivity|].
    intros _ _. rewrite !elem_of_cons, !elem_of_app, !elem_of_cons. tauto.
  - unfold mret at 1, M_ret at 1. cbn iota beta. run_steps.
    eexists _, (Returned r), cs, n. split; [done|]. split; [reflexivity|].
    intros H1 H2. apply andb_false_iff in Ec as [Ec|Ec].
    + apply Z.ltb_ge in Ec. lia.
    + apply negb_false_iff, bool_decide_eq_true_1 in Ec. done.
Qed.

Lemma read_settings_cases inp st :
  ∃ l, (∃ name, name ∈ required ∧ ¬ supplied inp name
                ∧ read_settings inp st = (Threw (missing name), add_logs st l))
       ∨ (∃ s, reads inp s ∧ read_settings inp st = (Returned s, add_logs st l)).
Proof.
  destruct (decide (supplied inp "url")) as [Hu|Hu].
  2: { exists []. left. exists "url"%string. split_and!; [set_solver|done|].
       unfold read_settings.
       by rewrite bind_run, getRequiredInput_missing, add_logs_nil. }
  destruct (decide (supplied inp "gcs-bucket")) as [Hb|Hb].
  2: { exists []. left. exists "gcs-bucket"%string.
       split_and!; [set_solver|done|]. unfold read_settings.
       rewrite bind_run, getRequiredInput_supplied by done.
       by rewrite bind_run, getRequiredInput_missing, add_logs_nil. }
  destruct (decide (supplied inp "gcs-object")) as [Ho|Ho].
  2: { exists []. left. exists "gcs-object"%string.
       split_and!; [set_solver|done|]. unfold read_settings.
       rewrite bind_run, getRequiredInput_supplied by done.
       rewrite bind_run, getRequiredInput_supplied by done.
       by rewrite bind_run, getRequiredInput_missing, add_logs_nil. }
  destruct (read_settings_supplied inp st Hu Hb Ho) as (h & m & l & E).
  exists l. right. eexists. split; [|done]. unfold reads. eauto 10.
Qed.

Lemma with_outputs_nil st : with_outputs st [] = st.
Proof. destruct st. unfold with_outputs. simpl. by rewrite app_nil_r. Qed.

(** From the download on, after the existence check or without it. *)
Lemma relay_transfers w inp s l0 :
  reads inp s → proceeds w s →
  ∃ l o cs n outs,
    relay w s (extend initial l0 (check_calls s) 0)
    = (o, with_outputs (extend initial l cs n) outs)
    ∧ transfers w inp l o cs n outs.
Proof.
  intros Hr Hp.
  pose proof (relay_sound w s (extend initial l0 (check_calls s) 0)) as Hrelay.
  destruct (download_reply w) as [dr|e] eqn:Ed.
  - destruct Hrelay as (l2 & o & cs & n & Hu & Hrelay). cbv zeta in Hrelay.
    cbn [bytesTransferred extend initial] in Hrelay.
    rewrite N.add_0_l in Hrelay. destruct o as [r|e].
    + destruct Hrelay as [-> Hw]. rewrite extend_extend, N.add_0_l.
      exists (l0 ++ l2), (Returned ()),
        (check_calls s ++ CallFetch (download_options s) :: cs), n,
        (transfer_outputs dr n r).
      split; [reflexivity|]. eapply transfers_done; [done..|].
      intros H1 H2. rewrite elem_of_app. right. by apply Hw.
    + rewrite Hrelay, extend_extend, N.add_0_l.
      exists (l0 ++ l2), (Threw e), (check_calls s ++ CallFetch (download_options s) :: cs), n, [].
      split; [by rewrite with_outputs_nil|].
      by eapply transfers_upload_error.
  - destruct Hrelay as [l2 ->]. rewrite extend_extend, N.add_0_l.
    exists (l0 ++ l2), (Threw e), (check_calls s ++ [CallFetch (download_options s)]), 0, [].
    split; [by rewrite with_outputs_nil|].
    by eapply transfers_fetch_error.
Qed.

(** Every run of the [try] block follows one of the paths of [transfers]. *)
Lemma transfer_sound w inp :
  ∃ l o cs n outs,
    transfer w inp initial = (o, with_outputs (extend initial l cs n) outs)
    ∧ transfers w inp l o cs n outs.
Proof.
  unfold transfer. rewrite bind_run.
  destruct (read_settings_cases inp initial)
    as [l0 [(name & Hn & Hs & ->)|(s & Hr & ->)]].
  { rewrite add_logs_extend. exists l0, (Threw (missing name)), [], 0, [].
    split; [by rewrite with_outputs_nil|]. by constructor. }
  rewrite add_logs_extend.
  destruct (s_ifNotExists s) eqn:Eif.
  - destruct (skip_if_exists_sound w s (extend initial l0 [] 0)) as [l1 E].
    cbv zeta in E. rewrite bind_run, E, extend_extend. tidy. clear E.
    assert (check_calls s = [CallExists (s_gcsBucket s) (s_gcsObject s)])
      as Hcc by (unfold check_calls; by rewrite Eif).
    rewrite <- Hcc.
    destruct (exists_reply w) as [[|]|e] eqn:Ex.
    + exists (l0 ++ l1), (Returned ()), (check_calls s), 0, (skipped_outputs s).
      split; [reflexivity|]. by eapply transfers_skipped.
    + apply relay_transfers; [done|by right].
    + exists (l0 ++ l1), (Threw e), (check_calls s), 0, [].
      split; [by rewrite with_outputs_nil|].
      by eapply transfers_check_error.
  - rewrite bind_ret.
    assert (check_calls s = []) as Hcc by (unfold check_calls; by rewrite Eif).
    rewrite <- Hcc. apply relay_transfers; [done|by left].
Qed.

(** The state a run ends in, along its path. *)
Lemma final_sound w inp :
  ∃ l l' o cs n outs,
    final w inp = ending l l' o cs n outs ∧ transfers w inp l o cs n outs.
Proof.
  destruct (transfer_sound w inp) as (l & o & cs & n & outs & E & Ht).
  unfold final, run, try_catch. rewrite E. destruct o as [[]|e].
  - by exists l, [], (Returned ()), cs, n, outs.
  - destruct (report_fails e (with_outputs (extend initial l cs n) outs))
      as [l' ->].
    by exists l, l', (Threw e), cs, n, outs.
Qed.

(** *** What a run ends with *)

Lemma ending_failure l l' o cs n outs :
  failure (ending l l' o cs n outs)
  = match o with
    | Returned _ => None
    | Threw e => Some (failure_message e)
    end.
Proof. by destruct o. Qed.

Lemma ending_outputs l l' o cs n outs : outputs (ending l l' o cs n outs) = outs.
Proof. by destruct o. Qed.

Lemma ending_calls l l' o cs n outs : calls (ending l l' o cs n outs) = cs.
Proof. by destruct o. Qed.

Lemma ending_bytes l l' o cs n outs :
  bytesTransferred (ending l l' o cs n outs) = n.
Proof. by destruct o. Qed.

Lemma ending_logs l l' o cs n outs x :
  x ∈ l → x ∈ logs (ending l l' o cs n outs).
Proof.
  intros H. destruct o; cbn; rewrite ?elem_of_app; auto.
Qed.

Lemma reads_fields inp s :
  reads inp s →
  s_gcsBucket s = getInput inp "gcs-bucket"
  ∧ s_gcsObject s = getInput inp "gcs-object"
  ∧ s_ifNotExists s = bool_decide (getInput inp "if-not-exists" = lit "true")
  ∧ s_storageClass s = storage_class inp
  ∧ s_predefinedAcl s = getInput inp "predefined-acl".
Proof. by intros (_ & _ & _ & h & m & ->). Qed.

Lemma required_supplied inp name :
  supplied inp "url" → supplied inp "gcs-bucket" → supplied inp "gcs-object" →
  name ∈ required → supplied inp name.
Proof.
  intros Hu Hb Ho. unfold required.
  rewrite !elem_of_cons, elem_of_nil. intros [->|[->|[->|[]]]]; done.
Qed.

(** C2. With [if-not-exists] set and the object there, the run asks the
    store whether the object exists and nothing else: no fetch, no upload,
    no byte read from the body; it ends without the failure signal, with the
    outputs status-code ["0"], content-length ["0"], the gs:// URL, an empty
    generation and object-existed ["true"]. *)
Theorem skip_when_object_exists w inp :
  supplied inp "url" → supplied inp "gcs-bucket" → supplied inp "gcs-object" →
  getInput inp "if-not-exists" = lit "true" →
  exists_reply w = Ok true →
  let st := final w inp in
  calls st = [CallExists (getInput inp "gcs-bucket") (getInput inp "gcs-object")]
  ∧ fetch_calls st = 0%nat
  ∧ upload_calls st = 0%nat
  ∧ bytesTransferred st = 0
  ∧ failure st = None
  ∧ outputs st
    = [(lit "status-code", lit "0");
       (lit "content-length", lit "0");
       (lit "gcs-url", lit "gs://" ++ getInput inp "gcs-bucket" ++ lit "/"
                       ++ getInput inp "gcs-object");
       (lit "generation", []);
       (lit "object-existed", lit "true")].
Proof.
  intros Hu Hb Ho Hif Hex.
  destruct (final_sound w inp) as (l & l' & o & cs & n & outs & E & Ht).
  cbv zeta. unfold fetch_calls, upload_calls.
  rewrite E, ending_calls, ending_bytes, ending_failure, ending_outputs.
  inversion Ht as [? name Hn Hs|? s e Hr Hi Hx|? s Hr Hi Hx|? s e Hr Hp Hd
                  |? s dr e cs' n' Hr Hp Hd Hup|? s dr r cs' n' Hr Hp Hd Hup Hw];
    subst; try (by destruct Hs; apply required_supplied);
    try congruence;
    destruct (reads_fields inp s Hr) as (Eb & Eo & Ei & _).
  - unfold check_calls, skipped_outputs, gs_url. rewrite Hi, Eb, Eo. done.
  - destruct Hp as [Hp|Hp]; [|congruence].
    rewrite Ei, Hif, bool_decide_eq_true_2 in Hp; done.
  - destruct Hp as [Hp|Hp]; [|congruence].
    rewrite Ei, Hif, bool_decide_eq_true_2 in Hp; done.
  - destruct Hp as [Hp|Hp]; [|congruence].
    rewrite Ei, Hif, bool_decide_eq_true_2 in Hp; done.
Qed.

Lemma skip_when_object_exists_witness :
  let st := final Sample.world_object_exists Sample.inputs_if_not_exists in
  calls st = [CallExists (lit "my-bucket") (lit "downloads/data.json")]
  ∧ fetch_calls st = 0%nat
  ∧ upload_calls st = 0%nat
  ∧ bytesTransferred st = 0
  ∧ failure st = None
  ∧ outputs st
    = [(lit "status-code", lit "0");
       (lit "content-length", lit "0");
       (lit "gcs-url", lit "gs://my-bucket/downloads/data.json");
       (lit "generation", []);
       (lit "object-existed", lit "true")].
Proof.
  apply (skip_when_object_exists Sample.world_object_exists
           Sample.inputs_if_not_exists); by vm_compute.
Defined.

(** *** The upload of a run, path by path *)

Lemma storage_class_nonempty inp : storage_class inp ≠ [].
Proof.
  unfold storage_class, or_else. case_bool_decide; [|done].
  by apply (bool_decide_unpack _).
Qed.

Lemma truthy_value_Some x : x ≠ [] → truthy_value (Some x) = Some x.
Proof. by destruct x. Qed.

Lemma run_class inp s dr :
  reads inp s →
  truthy_value (storageClass (upload_options s dr)) = Some (storage_class inp).
Proof.
  intros Hr. destruct (reads_fields inp s Hr) as (_ & _ & _ & Ec & _).
  cbn [upload_options storageClass]. rewrite Ec.
  apply truthy_value_Some, storage_class_nonempty.
Qed.

Lemma run_class_ok inp s dr :
  reads inp s → storage_class inp ∈ validClasses →
  class_ok (upload_options s dr).
Proof.
  intros Hr Hv sc. rewrite (run_class inp) by done. by intros [= <-].
Qed.

Lemma run_acl_ok inp s dr :
  reads inp s →
  getInput inp "predefined-acl" = []
  ∨ getInput inp "predefined-acl" ∈ validAcls →
  acl_ok (upload_options s dr).
Proof.
  intros Hr Hv a. destruct (reads_fields inp s Hr) as (_ & _ & _ & _ & Ea).
  cbn [upload_options predefinedAcl]. rewrite Ea. unfold or_undefined.
  destruct Hv as [-> | Hv]; [done|]. case_bool_decide as E; [done|].
  rewrite truthy_value_Some by done. by intros [= <-].
Qed.

(** An upload with an invalid storage class ends in the validation, with
    no call and no byte read. *)
Lemma uploads_invalid_class w options sc o cs n :
  truthy_value (storageClass options) = Some sc → sc ∉ validClasses →
  uploads w options o cs n →
  o = Threw (invalid_class sc) ∧ cs = [] ∧ n = 0.
Proof.
  intros Esc Hsc Hu.
  assert (¬ class_ok options) as Hno by (intros H; by apply Hsc, H).
  inversion Hu; subst; try done. by simplify_eq.
Qed.

(** An upload that returns has read the whole body. *)
Lemma uploads_returned w options r cs n :
  uploads w options (Returned r) cs n →
  n = ByteCountingStream.total (body options)
  ∧ ∃ g, metadata_reply w = Ok g ∧ r = uploaded options g.
Proof. inversion 1; subst. eauto. Qed.

(** An upload whose steps all succeed returns. *)
Lemma uploads_success w options o cs n g :
  class_ok options → acl_ok options →
  write_reply w = WriteFinish → storage_class_reply w = Ok () →
  metadata_reply w = Ok g →
  uploads w options o cs n →
  o = Returned (uploaded options g)
  ∧ n = ByteCountingStream.total (body options).
Proof.
  intros Hc Ha Hw Hs Hm Hu.
  inversion Hu as [sc Esc Hsc|a ? Ea Hacl| | | |]; subst; try congruence.
  - by destruct Hsc; apply Hc.
  - by destruct Hacl; apply Ha.
  - split; [|done]. congruence.
Qed.

(** An upload whose write finishes and whose storage-class update fails
    throws what the [catch] block makes of the failure. *)
Lemma uploads_class_update_fails w options o cs n sc e :
  class_ok options → acl_ok options →
  truthy_value (storageClass options) = Some sc →
  write_reply w = WriteFinish → storage_class_reply w = Fail e →
  uploads w options o cs n →
  o = Threw (rethrown e)
  ∧ cs = [write_call options;
          CallSetStorageClass (bucket options) (objectName options) sc]
  ∧ n = ByteCountingStream.total (body options).
Proof.
  intros Hc Ha Esc Hw Hs Hu.
  inversion Hu as [sc' Esc' Hsc|a ? Ea Hacl| | |? ? ? ? [?|?]|? ? ? ? [?|?]];
    subst; try congruence.
  - by destruct Hsc; apply Hc.
  - by destruct Hacl; apply Ha.
  - split_and!; [congruence| |done]. unfold class_calls. by rewrite Esc.
Qed.

(** Splits a run along its paths. *)
Ltac run_paths w inp :=
  let l := fresh "l" in let l' := fresh "l'" in let o := fresh "o" in
  let cs := fresh "cs" in let n := fresh "n" in let outs := fresh "outs" in
  let E := fresh "E" in let Ht := fresh "Ht" in
  destruct (final_sound w inp) as (l & l' & o & cs & n & outs & E & Ht);
  cbv zeta; unfold fetch_calls, upload_calls;
  rewrite ?E, ?ending_calls, ?ending_bytes, ?ending_failure, ?ending_outputs;
  inversion Ht as [? name Pn Ps|? s thrown Pr Pi Px|? s Pr Pi Px
                  |? s thrown Pr Pp Pd
                  |? s response thrown cs' n' Pr Pp Pd Pup
                  |? s response result cs' n' Pr Pp Pd Pup Pw];
  subst.

Lemma asked_proceeds inp w s :
  reads inp s → getInput inp "if-not-exists" = lit "true" → proceeds w s →
  exists_reply w = Ok false.
Proof.
  intros Hr Hif [Hp|Hp]; [|done].
  destruct (reads_fields inp s Hr) as (_ & _ & Ei & _).
  rewrite Ei, Hif, bool_decide_eq_true_2 in Hp; done.
Qed.

Lemma check_calls_no_fetch s :
  List.filter is_fetch (check_calls s) = []
  ∧ List.filter is_upload (check_calls s) = [].
Proof. unfold check_calls. by destruct (s_ifNotExists s). Qed.

(** C6. The existence check returns the boolean of the store when the
    query succeeds; when the query fails it throws the error of the store,
    as it is, and never returns false. A run that asked for the check then
    fails, with no fetch, no upload and no output. *)
Theorem existence_check_rethrows w bucket objectName st :
  (∀ b, exists_reply w = Ok b →
        objectExists w bucket objectName st
        = (Returned b, extend st [] [CallExists bucket objectName] 0))
  ∧ (∀ e, exists_reply w = Fail e →
          objectExists w bucket objectName st
          = (Threw e, extend st [] [CallExists bucket objectName] 0)
          ∧ ∀ inp,
              supplied inp "url" → supplied inp "gcs-bucket" →
              supplied inp "gcs-object" →
              getInput inp "if-not-exists" = lit "true" →
              let fin := final w inp in
              failure fin = Some (failure_message e)
              ∧ outputs fin = []
              ∧ fetch_calls fin = 0%nat
              ∧ upload_calls fin = 0%nat).
Proof.
  split.
  - intros b Hx. unfold objectExists, try_catch. by rewrite ask_extend, Hx.
  - intros e Hx. split.
    { unfold objectExists, try_catch. by rewrite ask_extend, Hx. }
    intros inp Hu Hb Ho Hif. run_paths w inp;
      try (by destruct Ps; apply required_supplied); try congruence;
      try (pose proof (asked_proceeds inp w s Pr Hif Pp); congruence).
    destruct (check_calls_no_fetch s) as [-> ->].
    split_and!; first [done|congruence].
Qed.

Lemma existence_check_rethrows_witness :
  objectExists Sample.world_check_fails (lit "my-bucket")
    (lit "downloads/data.json") initial
  = (Threw Sample.forbidden,
     extend initial []
       [CallExists (lit "my-bucket") (lit "downloads/data.json")] 0)
  ∧ let fin := final Sample.world_check_fails Sample.inputs_if_not_exists in
    failure fin = Some (lit "Action failed: Forbidden")
    ∧ outputs fin = []
    ∧ fetch_calls fin = 0%nat
    ∧ upload_calls fin = 0%nat.
Proof.
  destruct (proj2 (existence_check_rethrows Sample.world_check_fails
                     (lit "my-bucket") (lit "downloads/data.json") initial)
              Sample.forbidden eq_refl) as [H1 H2].
  split; [exact H1|].
  apply (H2 Sample.inputs_if_not_exists); by vm_compute.
Defined.

Lemma filter_fetch_run s cs :
  length (List.filter is_fetch
            (check_calls s ++ CallFetch (download_options s) :: cs))
  = S (length (List.filter is_fetch cs)).
Proof.
  rewrite List.filter_app. cbn [List.filter is_fetch].
  destruct (check_calls_no_fetch s) as [-> _]. done.
Qed.

Lemma filter_upload_run s cs :
  List.filter is_upload (check_calls s ++ CallFetch (download_options s) :: cs)
  = List.filter is_upload cs.
Proof.
  rewrite List.filter_app. cbn [List.filter is_upload].
  destruct (check_calls_no_fetch s) as [_ ->]. done.
Qed.

Lemma failure_message_invalid_class sc :
  failure_message (invalid_class sc)
  = lit "Action failed: Invalid storage class: " ++ sc
    ++ lit ". Must be one of: STANDARD, NEARLINE, COLDLINE, ARCHIVE".
Proof.
  unfold failure_message, invalid_class, new_Error. cbn [message].
  by vm_compute.
Qed.

(** C3, as stated, fails: with the storage class FOO the run has sent its
    HTTP request by the time the validation throws. *)
Lemma invalid_storage_class_after_fetch :
  storage_class Sample.inputs_foo = lit "FOO"
  ∧ (storage_class Sample.inputs_foo ∉ validClasses)
  ∧ fetch_calls (final Sample.world Sample.inputs_foo) = 1%nat.
Proof.
  split_and!; [by vm_compute|apply (bool_decide_unpack _); by vm_compute|].
  by vm_compute.
Qed.

(** C3, amended. A run with an invalid storage class sends no request to
    write the object: the validation is the first step of the upload. The
    validation is reached after the fetch: when the run is not skipped and
    the fetch succeeds, one HTTP request has been sent, and the run fails
    with the error of the validation, with no output. *)
Theorem invalid_storage_class_fails w inp :
  storage_class inp ∉ validClasses →
  let st := final w inp in
  upload_calls st = 0%nat
  ∧ (∀ dr,
       supplied inp "url" → supplied inp "gcs-bucket" →
       supplied inp "gcs-object" →
       getInput inp "if-not-exists" ≠ lit "true" ∨ exists_reply w = Ok false →
       download_reply w = Ok dr →
       fetch_calls st = 1%nat
       ∧ outputs st = []
       ∧ failure st
         = Some (lit "Action failed: Invalid storage class: "
                 ++ storage_class inp
                 ++ lit ". Must be one of: STANDARD, NEARLINE, COLDLINE, ARCHIVE")).
Proof.
  intros Hsc. run_paths w inp.
  - split; [done|]. intros dr Hu Hb Ho. by destruct Ps; apply required_supplied.
  - destruct (check_calls_no_fetch s) as [_ ->]. split; [done|].
    intros dr Hu Hb Ho [Hif|Hif] Hd; [|congruence].
    destruct (reads_fields inp s Pr) as (_ & _ & Ei & _).
    by rewrite Ei, bool_decide_eq_false_2 in Pi.
  - destruct (check_calls_no_fetch s) as [_ ->]. split; [done|].
    intros dr Hu Hb Ho [Hif|Hif] Hd; [|congruence].
    destruct (reads_fields inp s Pr) as (_ & _ & Ei & _).
    by rewrite Ei, bool_decide_eq_false_2 in Pi.
  - rewrite List.filter_app. destruct (check_calls_no_fetch s) as [_ ->].
    split; [done|]. intros; congruence.
  - destruct (uploads_invalid_class _ _ _ _ _ _ (run_class inp s response Pr)
                Hsc Pup) as ([= ->] & -> & ->).
    rewrite filter_upload_run, filter_fetch_run. split; [done|].
    intros dr _ _ _ _ _. split_and!; [done..|].
    by rewrite failure_message_invalid_class.
  - by destruct (uploads_invalid_class _ _ _ _ _ _
                   (run_class inp s response Pr) Hsc Pup) as (? & _).
Qed.

Lemma invalid_storage_class_fails_witness :
  let st := final Sample.world Sample.inputs_foo in
  upload_calls st = 0%nat
  ∧ fetch_calls st = 1%nat
  ∧ outputs st = []
  ∧ failure st
    = Some (lit "Action failed: Invalid storage class: FOO. Must be one of: STANDARD, NEARLINE, COLDLINE, ARCHIVE").
Proof.
  assert (storage_class Sample.inputs_foo ∉ validClasses) as H
    by (apply (bool_decide_unpack _); by vm_compute).
  destruct (invalid_storage_class_fails Sample.world Sample.inputs_foo H)
    as [H1 H2].
  split; [exact H1|].
  apply (H2 Sample.response); try (by vm_compute). by right.
Defined.

(** C10. When the write has finished and the update of the storage class
    fails, the run fails: the [catch] block of the upload throws the failure
    again, as an Error that says "Failed to upload to GCS" when it was an
    Error; no output is set, and the generation is not asked for. The body
    has been read in full by then. *)
Theorem storage_class_update_failure_fails w inp dr e :
  supplied inp "url" → supplied inp "gcs-bucket" → supplied inp "gcs-object" →
  getInput inp "if-not-exists" ≠ lit "true" ∨ exists_reply w = Ok false →
  download_reply w = Ok dr →
  storage_class inp ∈ validClasses →
  getInput inp "predefined-acl" = []
  ∨ getInput inp "predefined-acl" ∈ validAcls →
  write_reply w = WriteFinish →
  storage_class_reply w = Fail e →
  let st := final w inp in
  failure st = Some (failure_message (rethrown e))
  ∧ (∀ err, e = ThrownError err →
            failure st = Some (lit "Action failed: Failed to upload to GCS: "
                               ++ message err))
  ∧ outputs st = []
  ∧ upload_calls st = 2%nat
  ∧ bytesTransferred st = ByteCountingStream.total (stream dr).
Proof.
  intros Hu Hb Ho Hif Hd Hsc Hacl Hw He. run_paths w inp;
    try (by destruct Ps; apply required_supplied); try congruence.
  - destruct Hif as [Hif|Hif]; [|congruence].
    destruct (reads_fields inp s Pr) as (_ & _ & Ei & _).
    by rewrite Ei, bool_decide_eq_false_2 in Pi.
  - destruct Hif as [Hif|Hif]; [|congruence].
    destruct (reads_fields inp s Pr) as (_ & _ & Ei & _).
    by rewrite Ei, bool_decide_eq_false_2 in Pi.
  - assert (response = dr) as -> by congruence.
    destruct (uploads_class_update_fails w (upload_options s dr) _ _ _ _ e
                (run_class_ok inp s dr Pr Hsc) (run_acl_ok inp s dr Pr Hacl)
                (run_class inp s dr Pr) Hw He Pup) as ([= ->] & -> & ->).
    rewrite filter_upload_run. split_and!; try done.
    by intros err ->.
  - assert (response = dr) as -> by congruence.
    by destruct (uploads_class_update_fails w (upload_options s dr) _ _ _ _ e
                   (run_class_ok inp s dr Pr Hsc)
                   (run_acl_ok inp s dr Pr Hacl)
                   (run_class inp s dr Pr) Hw He Pup) as (? & _).
Qed.

Lemma storage_class_update_failure_fails_witness :
  let st := final Sample.world_class_update_fails Sample.inputs in
  failure st = Some (lit "Action failed: Failed to upload to GCS: Forbidden")
  ∧ outputs st = []
  ∧ upload_calls st = 2%nat
  ∧ bytesTransferred st = 95.
Proof.
  assert (storage_class Sample.inputs ∈ validClasses) as Hsc
    by (apply (bool_decide_unpack _); by vm_compute).
  assert (getInput Sample.inputs "predefined-acl" = []
          ∨ getInput Sample.inputs "predefined-acl" ∈ validAcls) as Hacl
    by (left; by vm_compute).
  assert (getInput Sample.inputs "if-not-exists" ≠ lit "true"
          ∨ exists_reply Sample.world_class_update_fails = Ok false) as Hif
    by (by right).
  assert (supplied Sample.inputs "url") as Hu by (by vm_compute).
  assert (supplied Sample.inputs "gcs-bucket") as Hb by (by vm_compute).
  assert (supplied Sample.inputs "gcs-object") as Ho by (by vm_compute).
  destruct (storage_class_update_failure_fails
              Sample.world_class_update_fails Sample.inputs Sample.response
              Sample.forbidden Hu Hb Ho Hif eq_refl Hsc Hacl eq_refl eq_refl)
    as (_ & H & H').
  split; [exact (H (new_Error (lit "Forbidden")) eq_refl)|exact H'].
Defined.

(** C4. A run ends in one of two ways. Done: no failure signal, and the
    five outputs, each set once. Failed: the failure signal, and no output
    at all, so no generation either; that is how a run ends when a required
    input is missing, or the existence check, the fetch or the upload
    fails. *)
Theorem outputs_only_when_done w inp :
  let st := final w inp in
  (failure st = None
   ∧ (outputs st).*1
     = [lit "status-code"; lit "content-length"; lit "gcs-url";
        lit "generation"; lit "object-existed"])
  ∨ (is_Some (failure st) ∧ outputs st = []).
Proof. run_paths w inp; solve [by left | by right]. Qed.

(** C1. A run that ends without the failure signal reports as
    content-length the count of the bytes read from the body: zero for a
    skipped run; for a transfer the whole body, whatever length the
    response declared, and a declared length above zero that differs from
    the count leaves a warning in the log. The declared length has no say
    in the success: a run whose stages all succeed ends without the failure
    signal. *)
Theorem content_length_is_bytes_read w inp :
  let st := final w inp in
  (failure st = None →
   (lit "content-length", decimalN (bytesTransferred st)) ∈ outputs st
   ∧ ((fetch_calls st = 0%nat ∧ bytesTransferred st = 0)
      ∨ ∃ dr,
          download_reply w = Ok dr
          ∧ bytesTransferred st = ByteCountingStream.total (stream dr)
          ∧ ((0 < contentLengthHeader dr)%Z →
             Z.of_N (ByteCountingStream.total (stream dr))
             ≠ contentLengthHeader dr →
             (Warning,
              Text (discrepancy (ByteCountingStream.total (stream dr))
                      (contentLengthHeader dr))) ∈ logs st)))
  ∧ (∀ dr g,
       supplied inp "url" → supplied inp "gcs-bucket" →
       supplied inp "gcs-object" →
       getInput inp "if-not-exists" ≠ lit "true" ∨ exists_reply w = Ok false →
       download_reply w = Ok dr →
       storage_class inp ∈ validClasses →
       getInput inp "predefined-acl" = []
       ∨ getInput inp "predefined-acl" ∈ validAcls →
       write_reply w = WriteFinish → storage_class_reply w = Ok () →
       metadata_reply w = Ok g →
       failure st = None
       ∧ outputs st
         = [(lit "status-code", decimal (statusCode dr));
            (lit "content-length",
             decimalN (ByteCountingStream.total (stream dr)));
            (lit "gcs-url", lit "gs://" ++ getInput inp "gcs-bucket"
                            ++ lit "/" ++ getInput inp "gcs-object");
            (lit "generation", default [] g);
            (lit "object-existed", lit "false")]).
Proof.
  destruct (final_sound w inp) as (l & l' & o & cs & n & outs & E & Ht).
  cbv zeta. unfold fetch_calls.
  rewrite E, ending_calls, ending_bytes, ending_failure, ending_outputs.
  split.
  - intros Hf. destruct o as [[]|]; [|done].
    inversion Ht as [| |? s Pr Pi Px| |
                    |? s dr r cs' n' Pr Pp Pd Pup Pw]; subst.
    + split; [set_solver|]. left.
      by destruct (check_calls_no_fetch s) as [-> _].
    + destruct (uploads_returned _ _ _ _ _ Pup) as (-> & g & Hg & ->).
      split; [set_solver|]. right. exists dr. split_and!; [done..|].
      intros H1 H2. apply ending_logs. by apply Pw.
  - intros dr g Hu Hb Ho Hif Hd Hsc Hacl Hw Hs Hg.
    inversion Ht as [? name Pn Ps|? s thrown Pr Pi Px|? s Pr Pi Px
                    |? s thrown Pr Pp Pd
                    |? s response thrown cs' n' Pr Pp Pd Pup
                    |? s response result cs' n' Pr Pp Pd Pup Pw]; subst;
      try (by destruct Ps; apply required_supplied); try congruence.
    + destruct Hif as [Hif|Hif]; [|congruence].
      destruct (reads_fields inp s Pr) as (_ & _ & Ei & _).
      by rewrite Ei, bool_decide_eq_false_2 in Pi.
    + destruct Hif as [Hif|Hif]; [|congruence].
      destruct (reads_fields inp s Pr) as (_ & _ & Ei & _).
      by rewrite Ei, bool_decide_eq_false_2 in Pi.
    + assert (response = dr) as -> by congruence.
      by destruct (uploads_success w (upload_options s dr) _ _ _ g
                     (run_class_ok inp s dr Pr Hsc)
                     (run_acl_ok inp s dr Pr Hacl) Hw Hs Hg Pup) as (? & _).
    + assert (response = dr) as -> by congruence.
      destruct (uploads_success w (upload_options s dr) _ _ _ g
                  (run_class_ok inp s dr Pr Hsc)
                  (run_acl_ok inp s dr Pr Hacl) Hw Hs Hg Pup)
        as ([= ->] & ->).
      split; [done|].
      destruct (reads_fields inp s Pr) as (Eb & Eo & _).
      unfold transfer_outputs, uploaded.
      cbn [gcsUrl generation bucket objectName body upload_options].
      by rewrite Eb, Eo.
Qed.

(** The response declares 100 bytes and delivers 95: the run succeeds,
    reports 95 and warns. *)
Lemma content_length_is_bytes_read_witness :
  let st := final Sample.world Sample.inputs in
  failure st = None
  ∧ (lit "content-length", lit "95") ∈ outputs st
  ∧ (Warning,
     Text (lit "Bytes transferred (95) differs from Content-Length header (100)"))
    ∈ logs st.
Proof.
  assert (storage_class Sample.inputs ∈ validClasses) as Hsc
    by (apply (bool_decide_unpack _); by vm_compute).
  assert (getInput Sample.inputs "predefined-acl" = []
          ∨ getInput Sample.inputs "predefined-acl" ∈ validAcls) as Hacl
    by (left; by vm_compute).
  assert (getInput Sample.inputs "if-not-exists" ≠ lit "true"
          ∨ exists_reply Sample.world = Ok false) as Hif
    by (by right).
  assert (supplied Sample.inputs "url") as Hu by (by vm_compute).
  assert (supplied Sample.inputs "gcs-bucket") as Hb by (by vm_compute).
  assert (supplied Sample.inputs "gcs-object") as Ho by (by vm_compute).
  destruct (content_length_is_bytes_read Sample.world Sample.inputs)
    as [H1 H2].
  destruct (H2 Sample.response (Some (lit "1700000000000000"))
              Hu Hb Ho Hif eq_refl Hsc Hacl eq_refl eq_refl eq_refl)
    as [Hf Houts].
  destruct (H1 Hf) as [Hin [[Hz _]|(dr & Hd & Hn & Hwarn)]].
  { exfalso. revert Hz. by vm_compute. }
  injection Hd as <-.
  split; [exact Hf|]. split.
  - rewrite Hn in Hin. exact Hin.
  - apply Hwarn; by vm_compute.
Defined.

(** ** The retry policy *)

Module Import FetcherFacts.
Import Fetcher.

Lemma attempt_from_attempts transport base jitter retries : ∀ n,
  (n ≤ attempts (attempt_from transport base jitter n retries)
   ≤ n + retries)%nat.
Proof.
  induction retries as [|k IH]; intros n; simpl; [lia|].
  destruct (transient (transport n)); simpl; [|lia].
  specialize (IH (S n)). lia.
Qed.

(** The outcome is that of the last attempt made. *)
Lemma attempt_from_result transport base jitter retries : ∀ n,
  let f := attempt_from transport base jitter n retries in
  result f = transport (attempts f).
Proof.
  induction retries as [|k IH]; intros n; simpl; [done|].
  destruct (transient (transport n)); simpl; [apply IH|done].
Qed.

(** Every attempt before the last one failed transiently. *)
Lemma attempt_from_retried transport base jitter retries : ∀ n k,
  (n ≤ k < attempts (attempt_from transport base jitter n retries))%nat →
  transient (transport k) = true.
Proof.
  induction retries as [|r IH]; intros n k; simpl; [lia|].
  destruct (transient (transport n)) eqn:E; simpl; [|lia].
  intros H. destruct (decide (k = n)) as [->|]; [done|].
  apply (IH (S n)). lia.
Qed.

(** A transient failure is the outcome only when the attempts are used
    up. *)
Lemma attempt_from_exhausted transport base jitter retries : ∀ n,
  let f := attempt_from transport base jitter n retries in
  transient (result f) = true → attempts f = (n + retries)%nat.
Proof.
  induction retries as [|r IH]; intros n; simpl; [lia|].
  destruct (transient (transport n)) eqn:E; simpl.
  - intros H. rewrite (IH (S n)) by done. lia.
  - congruence.
Qed.

(** The delays before the retries: the backoff of each attempt but the
    last. *)
Lemma attempt_from_delays transport base jitter retries : ∀ n,
  let f := attempt_from transport base jitter n retries in
  delays f = backoff base jitter <$> seq n (attempts f - n).
Proof.
  induction retries as [|r IH]; intros n; simpl.
  - by rewrite Nat.sub_diag.
  - destruct (transient (transport n)) eqn:E; simpl.
    + pose proof (attempt_from_attempts transport base jitter r (S n)).
      rewrite (IH (S n)).
      replace (attempts (attempt_from transport base jitter (S n) r) - n)%nat
        with (S (attempts (attempt_from transport base jitter (S n) r) - S n))
        by lia.
      done.
    + by rewrite Nat.sub_diag.
Qed.

End FetcherFacts.

(** C5. With retry enabled the fetcher makes at most three attempts. An
    attempt is followed by another only when it failed transiently, so a
    failure that is not transient is never retried, and the delay before
    each retry is the backoff of the attempt that failed, whose base doubles
    from one attempt to the next. The outcome is that of the last attempt
    made: when every attempt fails, the last error. When the first two
    attempts fail transiently and the third succeeds, the fetch succeeds
    with exactly three attempts. *)
Theorem fetch_retry_policy transport base jitter :
  let f := Fetcher.fetch true transport base jitter in
  (1 ≤ Fetcher.attempts f ≤ 3)%nat
  ∧ (∀ k, (1 ≤ k < Fetcher.attempts f)%nat →
          Fetcher.transient (transport k) = true)
  ∧ (∀ k, (1 ≤ k ≤ Fetcher.attempts f)%nat →
          Fetcher.transient (transport k) = false → k = Fetcher.attempts f)
  ∧ Fetcher.result f = transport (Fetcher.attempts f)
  ∧ (Fetcher.transient (Fetcher.result f) = true → Fetcher.attempts f = 3%nat)
  ∧ Fetcher.delays f
    = Fetcher.backoff base jitter <$> seq 1 (Fetcher.attempts f - 1)
  ∧ (∀ n, Fetcher.backoff base jitter (S (S n)) - jitter (S (S n))
          = 2 * (Fetcher.backoff base jitter (S n) - jitter (S n)))
  ∧ (∀ r,
       Fetcher.transient (transport 1%nat) = true →
       Fetcher.transient (transport 2%nat) = true →
       transport 3%nat = Fetcher.Responded r →
       Fetcher.result f = Fetcher.Responded r ∧ Fetcher.attempts f = 3%nat).
Proof.
  cbv zeta. unfold Fetcher.fetch. cbn [Fetcher.max_attempts Nat.sub].
  pose proof (attempt_from_attempts transport base jitter 2 1) as Hn.
  pose proof (attempt_from_retried transport base jitter 2 1) as Hr.
  split_and!.
  - lia.
  - lia.
  - intros k Hk. by apply Hr.
  - intros k Hk Ht. destruct (decide (k = Fetcher.attempts
      (Fetcher.attempt_from transport base jitter 1 2))) as [|Hne]; [done|].
    rewrite Hr in Ht by lia. done.
  - apply attempt_from_result.
  - intros H. by rewrite (attempt_from_exhausted transport base jitter 2 1).
  - apply attempt_from_delays.
  - intros n. unfold Fetcher.backoff.
    replace (S (S n) - 1)%nat with (S n) by lia.
    replace (S n - 1)%nat with n by lia.
    rewrite Nat2N.inj_succ, N.pow_succ_r'. lia.
  - intros r H1 H2 H3. simpl. rewrite H1, H2. simpl. by rewrite H3.
Qed.

(** A connection reset, then a 503, then a response: three attempts. *)
Lemma fetch_retry_policy_witness :
  let transport (n : nat) :=
    match n with
    | 1%nat => Fetcher.NetworkError (new_Error (lit "ECONNRESET"))
    | 2%nat => Fetcher.HttpStatusError 503 (new_Error (lit "Service Unavailable"))
    | _ => Fetcher.Responded Sample.response
    end in
  let f := Fetcher.fetch true transport 1000 (λ _, 0) in
  Fetcher.result f = Fetcher.Responded Sample.response
  ∧ Fetcher.attempts f = 3%nat.
Proof.
  cbv zeta.
  apply (fetch_retry_policy
           (λ n, match n with
                 | 1%nat => Fetcher.NetworkError (new_Error (lit "ECONNRESET"))
                 | 2%nat => Fetcher.HttpStatusError 503
                              (new_Error (lit "Service Unavailable"))
                 | _ => Fetcher.Responded Sample.response
                 end) 1000 (λ _, 0)); reflexivity.
Defined.

(** * More properties of the code *)

(** ** More about the segments of the semicolon format *)

Lemma trimStart_head s c r : trimStart s = c :: r → is_white_space c = false.
Proof.
  induction s as [|d s IH]; [done|]. simpl.
  destruct (is_white_space d) eqn:E; [done|]. by intros [= <- _].
Qed.

Lemma trimEnd_prefix s : ∃ q, s = trimEnd s ++ q.
Proof.
  unfold trimEnd. destruct (trimStart_suffix (reverse s)) as [p Hp].
  exists (reverse p).
  rewrite <- reverse_app, <- Hp. by rewrite reverse_involutive.
Qed.

Lemma trimEnd_last s r c : trimEnd s = r ++ [c] → is_white_space c = false.
Proof.
  unfold trimEnd. intros H. apply (f_equal reverse) in H.
  rewrite reverse_involutive, reverse_snoc in H. by eapply trimStart_head.
Qed.

(** What [trim] gives has no white space at either end. *)
Lemma trim_head s c r : trim s = c :: r → is_white_space c = false.
Proof.
  unfold trim. intros H.
  destruct (trimEnd_prefix (trimStart s)) as [q Hq]. rewrite H in Hq.
  by eapply (trimStart_head s c (r ++ q)).
Qed.

Lemma trim_last s r c : trim s = r ++ [c] → is_white_space c = false.
Proof. unfold trim. apply trimEnd_last. Qed.

Lemma trim_idempotent s : trim (trim s) = trim s.
Proof.
  apply trim_keep.
  - intros c r. apply trim_head.
  - intros r c. apply trim_last.
Qed.

Lemma split_nonempty sep s : split sep s ≠ [].
Proof.
  destruct s as [|c r]; [done|]. simpl.
  case_bool_decide; [done|]. by destruct (split sep r).
Qed.

Lemma split_snoc sep s t :
  sep ∉ t → split sep (s ++ sep :: t) = split sep s ++ [t].
Proof.
  intros Ht. induction s as [|c r IH]; simpl.
  - rewrite bool_decide_eq_true_2 by done. by rewrite split_no_sep.
  - case_bool_decide; rewrite IH; [done|].
    pose proof (split_nonempty sep r). by destruct (split sep r).
Qed.

(** The pair a segment contributes has a key that is not empty, and no
    white space around the key or the value. *)
Lemma pair_of_tidy seg k v :
  pair_of seg = Some (k, v) → k ≠ [] ∧ trim k = k ∧ trim v = v.
Proof.
  unfold pair_of. destruct (indexOf 61 (trim seg)) as [i|]; [|done].
  cbn [mbind option_bind]. case_bool_decide as Hk; [done|].
  intros [= <- <-]. split_and!; [done|apply trim_idempotent..].
Qed.

(** X1. Whatever the semicolon format returns is a mapping to strings whose
    keys are not empty and not [__proto__], with no white space around a
    key or a value. *)
Theorem parse_as_pairs_tidy name trimmed st props st' key v :
  parse_as_pairs name trimmed st = (Returned (Some (JObject props)), st') →
  props !! key = Some v →
  key ≠ [] ∧ trim key = key ∧ key ≠ lit "__proto__"
  ∧ ∃ s, v = JString s ∧ trim s = s.
Proof.
  rewrite parse_as_pairs_spec. cbv zeta.
  case_bool_decide as Hs; [|done]. intros [= <- _]. clear Hs. revert key v.
  change (map_Forall (λ key v, key ≠ [] ∧ trim key = key
            ∧ key ≠ lit "__proto__" ∧ ∃ s, v = JString s ∧ trim s = s)
            (foldl assign_pair ∅ (omap pair_of (split 59 trimmed)))).
  assert (Forall (λ kv, kv.1 ≠ [] ∧ trim kv.1 = kv.1 ∧ trim kv.2 = kv.2)
            (omap pair_of (split 59 trimmed))) as Hp.
  { apply Forall_forall. intros [k v] (seg & _ & Hseg)%list_elem_of_omap.
    by eapply pair_of_tidy. }
  revert Hp. generalize (omap pair_of (split 59 trimmed)). intros pairs Hp.
  induction pairs as [|[k v] pairs IH] using rev_ind.
  - apply map_Forall_empty.
  - apply Forall_app in Hp as [Hp [(Hk & Hkt & Hvt) _]%Forall_cons].
    specialize (IH Hp). rewrite foldl_snoc. unfold assign_pair at 1, assign. cbn [fst snd] in *.
    case_bool_decide as Hproto; [done|].
    apply map_Forall_insert_2; [|done]. split_and!; eauto.
Qed.

Lemma parse_as_pairs_tidy_witness :
  lit "k" ≠ [] ∧ trim (lit "k") = lit "k" ∧ lit "k" ≠ lit "__proto__"
  ∧ ∃ s, JString (lit "v w") = JString s ∧ trim s = s.
Proof.
  apply (parse_as_pairs_tidy (lit "metadata") (lit " k =  v w ;") initial
           {[ lit "k" := JString (lit "v w") ]} initial);
    vm_compute; reflexivity.
Defined.

Lemma foldl_assign_empty pairs : ∀ acc,
  foldl assign_pair acc pairs = ∅
  ↔ acc = ∅ ∧ Forall (λ kv, kv.1 = lit "__proto__") pairs.
Proof.
  induction pairs as [|[k v] pairs IH] using rev_ind; intros acc.
  - simpl. split; [by intros ->|by intros [-> _]].
  - rewrite foldl_snoc, Forall_app, Forall_singleton.
    unfold assign_pair at 1, assign. cbn [fst snd].
    case_bool_decide as Hk.
    + rewrite IH. split; [by intros [-> ?]|by intros [-> [? _]]].
    + split; [|by intros [_ [_ ?]]]. intros H.
      by apply insert_non_empty in H.
Qed.

Lemma split_units sep s seg x : seg ∈ split sep s → x ∈ seg → x ∈ s.
Proof.
  revert seg. induction s as [|c r IH]; intros seg; simpl.
  - by intros ->%list_elem_of_singleton.
  - case_bool_decide.
    + intros [->|Hin]%elem_of_cons Hx; [by apply elem_of_nil in Hx|].
      right. by eapply IH.
    + pose proof (split_nonempty sep r) as Hne.
      destruct (split sep r) as [|h t]; [done|].
      intros [->|Hin]%elem_of_cons Hx.
      * apply elem_of_cons in Hx as [->|Hx]; [by left|].
        right. eapply IH; [by left|done].
      * right. eapply IH; [by right|done].
Qed.

Lemma trim_units s x : x ∈ trim s → x ∈ s.
Proof.
  unfold trim. destruct (trimStart_suffix s) as [p Hp].
  destruct (trimEnd_prefix (trimStart s)) as [q Hq].
  intros Hin. rewrite Hp, Hq, !elem_of_app. auto.
Qed.

Lemma indexOf_None c s : c ∉ s → indexOf c s = None.
Proof.
  induction s as [|d r IH]; [done|].
  intros [Hd Hr]%not_elem_of_cons. simpl.
  rewrite bool_decide_eq_false_2 by done. by rewrite IH.
Qed.

(** A segment with no [=] contributes no pair. *)
Lemma pair_of_no_separator seg : 61 ∉ seg → pair_of seg = None.
Proof.
  intros H. unfold pair_of. rewrite indexOf_None; [done|].
  intros Hin. by apply H, trim_units.
Qed.

(** X2. The semicolon format returns absent exactly when no segment
    contributes a pair that can be stored: every pair found, if any, has
    the key [__proto__]. In particular an input with no [=] yields
    absent. *)
Theorem parse_as_pairs_absent name trimmed st :
  (fst (parse_as_pairs name trimmed st) = Returned None
   ↔ Forall (λ kv, kv.1 = lit "__proto__") (omap pair_of (split 59 trimmed)))
  ∧ (61 ∉ trimmed → fst (parse_as_pairs name trimmed st) = Returned None).
Proof.
  assert (fst (parse_as_pairs name trimmed st) = Returned None
   ↔ Forall (λ kv, kv.1 = lit "__proto__") (omap pair_of (split 59 trimmed)))
    as Hiff.
  { rewrite parse_as_pairs_spec. cbv zeta. cbn [fst].
    case_bool_decide as Hs.
    - split; [done|]. intros H. exfalso.
      assert (foldl assign_pair ∅ (omap pair_of (split 59 trimmed)) = ∅) as E
        by (by apply foldl_assign_empty).
      rewrite E, map_size_empty in Hs. lia.
    - split; [|done]. intros _.
      assert (foldl assign_pair ∅ (omap pair_of (split 59 trimmed)) = ∅) as E
        by (apply map_size_empty_iff; lia).
      by apply foldl_assign_empty in E as [_ ?]. }
  split; [done|]. intros Hno. apply Hiff.
  assert (omap pair_of (split 59 trimmed) = []) as ->; [|done].
  apply elem_of_nil_inv. intros kv (seg & Hseg & Hkv)%list_elem_of_omap.
  rewrite pair_of_no_separator in Hkv; [done|].
  intros Hin. apply Hno. by eapply split_units.
Qed.

(** X3. A last segment with no [=] changes nothing of what the semicolon
    format returns: a blank one is passed over in silence, any other one
    costs one warning that names it. So a semicolon at the end of the
    input is harmless. *)
Theorem parse_as_pairs_junk name s junk st :
  59 ∉ junk → 61 ∉ junk →
  parse_as_pairs name (s ++ 59 :: junk) st
  = (fst (parse_as_pairs name s st),
     add_logs (snd (parse_as_pairs name s st))
       (if bool_decide (trim junk = []) then []
        else [(Warning, Text (lit "Skipping invalid " ++ name
                              ++ lit " pair: " ++ trim junk))])).
Proof.
  intros Hsemi Heq. rewrite !parse_as_pairs_spec. cbn [fst snd].
  rewrite split_snoc, !omap_app by done. cbn [omap list_omap].
  rewrite pair_of_no_separator, app_nil_r, add_logs_app by done.
  do 2 f_equal. unfold skipped.
  case_bool_decide; [done|].
  rewrite indexOf_None; [done|]. intros Hin. by apply Heq, trim_units.
Qed.

Lemma parse_as_pairs_junk_witness :
  parse_as_pairs (lit "headers") (lit "a=1" ++ 59 :: lit " oops ") initial
  = (fst (parse_as_pairs (lit "headers") (lit "a=1") initial),
     add_logs (snd (parse_as_pairs (lit "headers") (lit "a=1") initial))
       (if bool_decide (trim (lit " oops ") = []) then []
        else [(Warning, Text (lit "Skipping invalid " ++ lit "headers"
                              ++ lit " pair: " ++ trim (lit " oops ")))])).
Proof.
  apply parse_as_pairs_junk; apply (bool_decide_unpack _); by vm_compute.
Defined.

Lemma skipped_count name1 name2 segs :
  length (omap (skipped name1) segs) = length (omap (skipped name2) segs).
Proof.
  induction segs as [|seg segs IH]; [done|]. cbn [omap list_omap].
  fold (omap (skipped name1) segs). fold (omap (skipped name2) segs).
  assert (skipped name1 seg = None ∧ skipped name2 seg = None
          ∨ ∃ w1 w2, skipped name1 seg = Some w1 ∧ skipped name2 seg = Some w2)
    as [[-> ->]|(w1 & w2 & -> & ->)]; [|done|by simpl; rewrite IH].
  unfold skipped. case_bool_decide; [by left|].
  destruct (indexOf 61 (trim seg)); [by left|right; eauto].
Qed.

(** X4. The label only words the warnings: under two labels the parser
    returns the same value for the same input, and logs as many lines. *)
Theorem parseKeyValuePairs_label input name1 name2 st1 st2 :
  fst (parseKeyValuePairs input name1 st1)
  = fst (parseKeyValuePairs input name2 st2)
  ∧ (length (logs (snd (parseKeyValuePairs input name1 st1)))
     - length (logs st1)
     = length (logs (snd (parseKeyValuePairs input name2 st2)))
       - length (logs st2))%nat.
Proof.
  pose proof (skipped_count name1 name2) as Hlen.
  unfold parseKeyValuePairs.
  destruct input as [input|]; [|split; [reflexivity|simpl; lia]].
  destruct (_ || _); [split; [reflexivity|simpl; lia]|].
  rewrite !bind_run. destruct (startsWith 123 (trim input)).
  - unfold parse_as_json. destruct (Json.parse (trim input)) as [v|].
    + destruct (_ || _); simpl; rewrite ?length_app; simpl;
        (split; [done|lia]).
    + simpl. rewrite !parse_as_pairs_spec. simpl.
      rewrite !length_app, Hlen. simpl. split; [done|lia].
  - simpl. rewrite !parse_as_pairs_spec. simpl.
    rewrite !length_app, Hlen. split; [done|lia].
Qed.

(** ** More about the upload *)

Lemma total_app cs1 cs2 :
  ByteCountingStream.total (cs1 ++ cs2)
  = ByteCountingStream.total cs1 + ByteCountingStream.total cs2.
Proof.
  induction cs1 as [|c cs1 IH]; [done|].
  rewrite <- app_comm_cons, !total_cons, IH. lia.
Qed.

Lemma total_take taken cs :
  ByteCountingStream.total (take taken cs) ≤ ByteCountingStream.total cs.
Proof.
  rewrite <- (take_drop taken cs) at 2. rewrite total_app. lia.
Qed.

(** An upload with an access preset outside the list ends in a
    validation, with no call and no byte read. *)
Lemma uploads_invalid_acl w options a o cs n :
  truthy_value (predefinedAcl options) = Some a → a ∉ validAcls →
  uploads w options o cs n →
  cs = [] ∧ n = 0
  ∧ ((class_ok options ∧ o = Threw (invalid_acl a))
     ∨ ∃ sc, truthy_value (storageClass options) = Some sc
             ∧ (sc ∉ validClasses) ∧ o = Threw (invalid_class sc)).
Proof.
  intros Ea Ha Hu.
  assert (¬ acl_ok options) as Hno by (intros H; by apply Ha, H).
  inversion Hu as [sc Esc Hsc|a' Hc Ea' Ha'| | | |]; subst; try done.
  - split_and!; [done..|]. right. eauto.
  - split_and!; [done..|]. left. split; [done|]. congruence.
Qed.

(** X5. An access preset that is not one of the six makes the upload fail
    in the validation: no call reaches the store and no byte is read from
    the body. The error is the one of the validation, with its own message
    and not wrapped as an upload failure; the storage class is checked
    first, so with both invalid it is the error of the storage class. *)
Theorem invalid_acl_rejected w options st a :
  truthy_value (predefinedAcl options) = Some a → a ∉ validAcls →
  ∃ l err,
    uploadStreamToGCS w options st = (Threw err, extend st l [] 0)
    ∧ (class_ok options →
       err = ThrownError (new_Error
               (lit "Invalid predefined ACL: " ++ a ++ lit ". Must be one of: "
                ++ lit "authenticatedRead, bucketOwnerFullControl, bucketOwnerRead, private, projectPrivate, publicRead")))
    ∧ (∀ sc, truthy_value (storageClass options) = Some sc →
             sc ∉ validClasses → err = invalid_class sc).
Proof.
  intros Ea Ha.
  destruct (upload_sound w options st) as (l & o & cs & n & E & Hu).
  destruct (uploads_invalid_acl w options a o cs n Ea Ha Hu)
    as (-> & -> & [[Hc ->]|(sc & Esc & Hsc & ->)]).
  - exists l, (invalid_acl a). split_and!; [done|done|].
    intros sc Esc Hsc. by destruct Hsc; apply Hc.
  - exists l, (invalid_class sc). split_and!; [done| |].
    + intros Hc. by destruct Hsc; apply Hc.
    + intros sc' Esc' _. congruence.
Qed.

Lemma invalid_acl_rejected_witness :
  ∃ l err,
    uploadStreamToGCS Sample.world Cases.options_public initial
    = (Threw err, extend initial l [] 0)
    ∧ (class_ok Cases.options_public →
       err = ThrownError (new_Error
               (lit "Invalid predefined ACL: " ++ lit "public"
                ++ lit ". Must be one of: "
                ++ lit "authenticatedRead, bucketOwnerFullControl, bucketOwnerRead, private, projectPrivate, publicRead")))
    ∧ (∀ sc, truthy_value (storageClass Cases.options_public) = Some sc →
             sc ∉ validClasses → err = invalid_class sc).
Proof.
  apply invalid_acl_rejected; [reflexivity|].
  apply (bool_decide_unpack _). by vm_compute.
Defined.

Lemma vetted_write options : acl_ok options → vetted options (write_call options).
Proof.
  intros Ha. unfold write_call, vetted, prepare. cbn.
  split_and!; first [done | apply Ha].
Qed.

Lemma vetted_class options :
  class_ok options → Forall (vetted options) (class_calls options).
Proof.
  intros Hc. unfold class_calls.
  destruct (truthy_value (storageClass options)) as [sc|] eqn:E; [|done].
  apply Forall_singleton. unfold vetted.
  split_and!; first [done | by apply Hc].
Qed.

(** The calls of every path of the upload are vetted. *)
Lemma uploads_vetted w options o cs n :
  uploads w options o cs n → Forall (vetted options) cs.
Proof.
  intros Hu. inversion Hu; subst; try done.
  - apply Forall_singleton. by apply vetted_write.
  - apply Forall_cons. split; [by apply vetted_write|by apply vetted_class].
  - apply Forall_cons. split; [by apply vetted_write|].
    apply Forall_app. split; [by apply vetted_class|].
    by apply Forall_singleton.
  - apply Forall_cons. split; [by apply vetted_write|].
    apply Forall_app. split; [by apply vetted_class|].
    by apply Forall_singleton.
Qed.

(** X6. Whatever the world and the options, an upload only sends calls of
    three kinds, under the bucket and object names of the options: a
    resumable write whose access preset, if any, is one of the six; an
    update to a storage class that is one of the four; a read of the
    metadata. No invalid preset or class reaches the store, and an upload
    neither fetches nor asks whether the object exists. *)
Theorem upload_calls_vetted w options st :
  ∃ o l cs n,
    uploadStreamToGCS w options st = (o, extend st l cs n)
    ∧ Forall (vetted options) cs.
Proof.
  destruct (upload_sound w options st) as (l & o & cs & n & E & Hu).
  exists o, l, cs, n. split; [done|]. by eapply uploads_vetted.
Qed.

(** X7. When the options are valid and every step succeeds, the upload
    sends the write, then the update of the storage class if a class is
    given, then the read of the metadata, in that order and nothing else;
    it reads the whole body and returns the gs:// URL, the generation of
    the metadata (the empty string when the metadata has none) and
    objectExisted false. With no storage class there is no update, whatever
    the store would have answered to it. *)
Theorem upload_steps w options st g :
  class_ok options → acl_ok options →
  write_reply w = WriteFinish →
  truthy_value (storageClass options) = None ∨ storage_class_reply w = Ok () →
  metadata_reply w = Ok g →
  ∃ l,
    uploadStreamToGCS w options st
    = (Returned {| generation := default [] g;
                   gcsUrl := lit "gs://" ++ bucket options ++ lit "/"
                             ++ objectName options;
                   objectExisted := Some false |},
       extend st l
         (CallWrite (bucket options) (objectName options)
            (prepare options (truthy_value (predefinedAcl options)))
          :: match truthy_value (storageClass options) with
             | Some sc => [CallSetStorageClass (bucket options)
                             (objectName options) sc]
             | None => []
             end
          ++ [CallGetMetadata (bucket options) (objectName options)])
         (ByteCountingStream.total (body options))).
Proof.
  intros Hc Ha Hw Hs Hm.
  destruct (upload_sound w options st) as (l & o & cs & n & E & Hu).
  exists l. rewrite E.
  inversion Hu as [sc Esc Hsc|a ? Ea Hacl|taken e|sc e ? ? ? Esc Hf
                  |e ? ? ? ? Hf|g' ? ? ? ? Hg]; subst; try congruence.
  - by destruct Hsc; apply Hc.
  - by destruct Hacl; apply Ha.
  - destruct Hs as [Hs|Hs]; congruence.
  - assert (g' = g) as -> by congruence. done.
Qed.

Lemma upload_steps_witness :
  ∃ l,
    uploadStreamToGCS Cases.world_no_generation Cases.options_private initial
    = (Returned {| generation := default [] None;
                   gcsUrl := lit "gs://" ++ lit "my-bucket" ++ lit "/"
                             ++ lit "data.json";
                   objectExisted := Some false |},
       extend initial l
         (CallWrite (lit "my-bucket") (lit "data.json")
            (prepare Cases.options_private (Some (lit "private")))
          :: [] ++ [CallGetMetadata (lit "my-bucket") (lit "data.json")])
         (ByteCountingStream.total (body Cases.options_private))).
Proof.
  apply (upload_steps Cases.world_no_generation Cases.options_private initial
           None).
  - by intros sc [=].
  - intros a [= <-]. apply (bool_decide_unpack _). by vm_compute.
  - reflexivity.
  - by left.
  - reflexivity.
Defined.

(** X8. When the write stream fails after some chunks, the upload stops
    there: the write is the only call, so the storage class is not updated
    and the metadata is not read; the counter has the bytes of the chunks
    taken, never more than the body; and the upload throws what the [catch]
    block makes of the failure of the stream. *)
Theorem write_failure_stops_upload w options st taken e :
  class_ok options → acl_ok options →
  write_reply w = WriteError taken e →
  ∃ l,
    uploadStreamToGCS w options st
    = (Threw (rethrown e),
       extend st l
         [CallWrite (bucket options) (objectName options)
            (prepare options (truthy_value (predefinedAcl options)))]
         (ByteCountingStream.total (take taken (body options))))
    ∧ ByteCountingStream.total (take taken (body options))
      ≤ ByteCountingStream.total (body options).
Proof.
  intros Hc Ha Hw.
  destruct (upload_sound w options st) as (l & o & cs & n & E & Hu).
  exists l. split; [|apply total_take]. rewrite E.
  inversion Hu as [sc Esc Hsc|a ? Ea Hacl|taken' e'| | |]; subst;
    try congruence.
  - by destruct Hsc; apply Hc.
  - by destruct Hacl; apply Ha.
  - assert (taken' = taken ∧ e' = e) as [-> ->] by (split; congruence). done.
Qed.

Lemma write_failure_stops_upload_witness :
  ∃ l,
    uploadStreamToGCS Cases.world_write_fails Cases.options_private initial
    = (Threw (rethrown Cases.reset),
       extend initial l
         [CallWrite (lit "my-bucket") (lit "data.json")
            (prepare Cases.options_private (Some (lit "private")))]
         (ByteCountingStream.total (take 1 (body Cases.options_private))))
    ∧ ByteCountingStream.total (take 1 (body Cases.options_private))
      ≤ ByteCountingStream.total (body Cases.options_private).
Proof.
  apply (write_failure_stops_upload Cases.world_write_fails
           Cases.options_private initial 1 Cases.reset).
  - by intros sc [=].
  - intros a [= <-]. apply (bool_decide_unpack _). by vm_compute.
  - reflexivity.
Defined.

(** X9. An upload that throws has failed in one of two ways. In the
    validation: the error is the one of the storage class or of the access
    preset, and no call was sent. Or past it, the write at least being
    sent: the error is what the [catch] block makes of the failure of the
    write stream, of the update of the storage class or of the read of the
    metadata, that is, for an Error a new Error whose message is "Failed to
    upload to GCS: " and the message of the cause, and for any other value
    the value itself. *)
Theorem upload_failure_kinds w options st err st' :
  uploadStreamToGCS w options st = (Threw err, st') →
  (calls st' = calls st
   ∧ ((∃ sc, err = invalid_class sc) ∨ (∃ a, err = invalid_acl a)))
  ∨ (∃ cause cs,
       calls st' = calls st ++ write_call options :: cs
       ∧ ((∃ taken, write_reply w = WriteError taken cause)
          ∨ storage_class_reply w = Fail cause
          ∨ metadata_reply w = Fail cause)
       ∧ err = match cause with
               | ThrownError e =>
                   ThrownError (new_Error (lit "Failed to upload to GCS: "
                                           ++ message e))
               | ThrownValue _ _ => cause
               end).
Proof.
  intros E.
  destruct (upload_sound w options st) as (l & o & cs & n & E' & Hu).
  rewrite E in E'. injection E' as <- ->.
  cbn [calls extend].
  inversion Hu; subst.
  - left. rewrite app_nil_r. eauto.
  - left. rewrite app_nil_r. eauto.
  - right. exists e, []. split_and!; [done|eauto|by destruct e].
  - right. exists e, (class_calls options).
    split_and!; [done|eauto|by destruct e].
  - right. exists e, (class_calls options ++ [metadata_call options]).
    split_and!; [done|eauto|by destruct e].
Qed.

Lemma upload_failure_kinds_witness :
  (calls (snd (uploadStreamToGCS Cases.world_write_fails
                 Cases.options_private initial)) = calls initial
   ∧ ((∃ sc, rethrown Cases.reset = invalid_class sc)
      ∨ (∃ a, rethrown Cases.reset = invalid_acl a)))
  ∨ (∃ cause cs,
       calls (snd (uploadStreamToGCS Cases.world_write_fails
                     Cases.options_private initial))
       = calls initial ++ write_call Cases.options_private :: cs
       ∧ ((∃ taken, write_reply Cases.world_write_fails
                    = WriteError taken cause)
          ∨ storage_class_reply Cases.world_write_fails = Fail cause
          ∨ metadata_reply Cases.world_write_fails = Fail cause)
       ∧ rethrown Cases.reset
         = match cause with
           | ThrownError e =>
               ThrownError (new_Error (lit "Failed to upload to GCS: "
                                       ++ message e))
           | ThrownValue _ _ => cause
           end).
Proof.
  apply (upload_failure_kinds Cases.world_write_fails Cases.options_private
           initial). vm_compute. reflexivity.
Defined.

(** ** More about the run *)

Lemma vetted_is_upload options c : vetted options c → is_upload c = true.
Proof. by destruct c. Qed.

Lemma uploads_at_most_three w options o cs n :
  uploads w options o cs n → (length cs ≤ 3)%nat.
Proof.
  intros Hu.
  assert (length (class_calls options) ≤ 1)%nat as Hc.
  { unfold class_calls. destruct (truthy_value _); simpl; lia. }
  inversion Hu; subst; cbn [length]; rewrite ?length_app; cbn [length]; lia.
Qed.

(** The run when its [try] block throws: the [catch] block logs and
    gives the failure signal. *)
Lemma final_thrown w inp e st :
  transfer w inp initial = (Threw e, st) →
  ∃ l, final w inp = with_failure (add_logs st l) (failure_message e).
Proof.
  intros E. unfold final, run, try_catch. rewrite E.
  destruct (report_fails e st) as [l ->]. by exists l.
Qed.

Lemma read_settings_first_missing inp name st :
  first_missing inp name →
  read_settings inp st = (Threw (missing name), st).
Proof.
  intros (before & after & E & Hb & Hn). unfold read_settings, missing.
  unfold required in E.
  destruct before as [|b1 [|b2 [|b3 before]]]; cbn [app] in E;
    injection E; intros; subst.
  - by rewrite bind_run, getRequiredInput_missing.
  - apply Forall_cons in Hb as [H1 _].
    rewrite bind_run, getRequiredInput_supplied by done.
    by rewrite bind_run, getRequiredInput_missing.
  - apply Forall_cons in Hb as [H1 [H2 _]%Forall_cons].
    rewrite bind_run, getRequiredInput_supplied by done.
    rewrite bind_run, getRequiredInput_supplied by done.
    by rewrite bind_run, getRequiredInput_missing.
  - by destruct before.
Qed.

(** X10. When a required input is missing, the run fails before anything
    else happens: no call to any collaborator, no output, and the failure
    signal names the first input missing in the order url, gcs-bucket,
    gcs-object. *)
Theorem missing_input_fails w inp name :
  first_missing inp name →
  let st := final w inp in
  failure st
  = Some (lit "Action failed: Input required and not supplied: " ++ lit name)
  ∧ calls st = [] ∧ outputs st = [] ∧ bytesTransferred st = 0.
Proof.
  intros Hm. cbv zeta.
  assert (transfer w inp initial = (Threw (missing name), initial)) as E.
  { unfold transfer.
    by rewrite bind_run, (read_settings_first_missing inp name). }
  destruct (final_thrown w inp _ _ E) as [l ->]. done.
Qed.

Lemma missing_input_fails_witness :
  let st := final Sample.world Cases.inputs_no_bucket in
  failure st
  = Some (lit "Action failed: Input required and not supplied: "
          ++ lit "gcs-bucket")
  ∧ calls st = [] ∧ outputs st = [] ∧ bytesTransferred st = 0.
Proof.
  apply (missing_input_fails Sample.world Cases.inputs_no_bucket "gcs-bucket").
  exists ["url"%string], ["gcs-object"%string]. split_and!.
  - reflexivity.
  - apply Forall_cons_2; [by vm_compute|apply Forall_nil_2].
  - intros H. by vm_compute in H.
Defined.

(** The relay asks the world for the download, the write, the update of
    the storage class and the metadata only. *)
Lemma relay_same_answers w w' s st :
  download_reply w' = download_reply w → write_reply w' = write_reply w →
  storage_class_reply w' = storage_class_reply w →
  metadata_reply w' = metadata_reply w →
  relay w' s st = relay w s st.
Proof.
  intros Hd Hw Hs Hm.
  unfold relay, downloadAsStream, uploadStreamToGCS, write_object, pipe.
  by rewrite Hd, Hw, Hs, Hm.
Qed.

(** X11. The existence check is a matter of the input [if-not-exists]
    being the text [true] and nothing else: with any other value, or none,
    the run never asks whether the object exists, and what the store would
    have answered has no bearing on it: two worlds that differ in that
    answer only give the same run. So without the flag an object that is
    there is written over. *)
Theorem no_check_unless_asked w w' inp :
  getInput inp "if-not-exists" ≠ lit "true" →
  download_reply w' = download_reply w → write_reply w' = write_reply w →
  storage_class_reply w' = storage_class_reply w →
  metadata_reply w' = metadata_reply w →
  final w' inp = final w inp
  ∧ Forall (λ r, is_check r = false) (calls (final w inp)).
Proof.
  intros Hif Hd Hw Hs Hm. split.
  - unfold final, run, try_catch, transfer. rewrite !bind_run.
    destruct (read_settings_cases inp initial)
      as [l0 [(name & Hn & Hsup & ->)|(s & Hr & ->)]]; [done|].
    destruct (reads_fields inp s Hr) as (_ & _ & Ei & _).
    rewrite Ei, bool_decide_eq_false_2 by done.
    by rewrite !bind_ret, (relay_same_answers w w').
  - run_paths w inp; try done.
    + destruct (reads_fields inp s Pr) as (_ & _ & Ei & _).
      by rewrite Ei, bool_decide_eq_false_2 in Pi.
    + destruct (reads_fields inp s Pr) as (_ & _ & Ei & _).
      by rewrite Ei, bool_decide_eq_false_2 in Pi.
    + destruct (reads_fields inp s Pr) as (_ & _ & Ei & _).
      unfold check_calls. rewrite Ei, bool_decide_eq_false_2 by done.
      by repeat constructor.
    + destruct (reads_fields inp s Pr) as (_ & _ & Ei & _).
      unfold check_calls. rewrite Ei, bool_decide_eq_false_2 by done.
      cbn [app]. constructor; [done|].
      eapply Forall_impl; [by eapply uploads_vetted|]. by intros [].
    + destruct (reads_fields inp s Pr) as (_ & _ & Ei & _).
      unfold check_calls. rewrite Ei, bool_decide_eq_false_2 by done.
      cbn [app]. constructor; [done|].
      eapply Forall_impl; [by eapply uploads_vetted|]. by intros [].
Qed.

Lemma no_check_unless_asked_witness :
  final Sample.world_object_exists Sample.inputs
  = final Sample.world Sample.inputs
  ∧ Forall (λ r, is_check r = false)
      (calls (final Sample.world Sample.inputs)).
Proof.
  apply no_check_unless_asked; try reflexivity.
  intros H. by vm_compute in H.
Defined.

(** X12. When the fetch fails, nothing is uploaded: the run has sent its
    one HTTP request and, before it, the existence check if it was asked
    for; no call reaches the store to write, no byte is counted, no output
    is set, and the failure signal carries the error of the fetch. *)
Theorem fetch_failure_stops_run w inp e :
  supplied inp "url" → supplied inp "gcs-bucket" → supplied inp "gcs-object" →
  getInput inp "if-not-exists" ≠ lit "true" ∨ exists_reply w = Ok false →
  download_reply w = Fail e →
  let st := final w inp in
  failure st = Some (failure_message e)
  ∧ fetch_calls st = 1%nat ∧ upload_calls st = 0%nat
  ∧ outputs st = [] ∧ bytesTransferred st = 0.
Proof.
  intros Hu Hb Ho Hif Hd. run_paths w inp; try congruence.
  - by destruct Ps; apply required_supplied.
  - destruct Hif as [Hif|Hif]; [|congruence].
    destruct (reads_fields inp s Pr) as (_ & _ & Ei & _).
    by rewrite Ei, bool_decide_eq_false_2 in Pi.
  - destruct Hif as [Hif|Hif]; [|congruence].
    destruct (reads_fields inp s Pr) as (_ & _ & Ei & _).
    by rewrite Ei, bool_decide_eq_false_2 in Pi.
  - assert (thrown = e) as -> by congruence.
    rewrite filter_fetch_run, filter_upload_run. done.
Qed.

Lemma fetch_failure_stops_run_witness :
  let st := final Cases.world_fetch_fails Sample.inputs in
  failure st = Some (failure_message Cases.reset)
  ∧ fetch_calls st = 1%nat ∧ upload_calls st = 0%nat
  ∧ outputs st = [] ∧ bytesTransferred st = 0.
Proof.
  apply (fetch_failure_stops_run Cases.world_fetch_fails Sample.inputs);
    try (by vm_compute).
  left. intros H. by vm_compute in H.
Defined.

Lemma check_calls_staged s :
  Forall (λ r, is_check r = true) (check_calls s)
  ∧ (length (check_calls s) ≤ 1)%nat.
Proof.
  unfold check_calls. destruct (s_ifNotExists s); simpl; split;
    repeat constructor.
Qed.

(** X13. Whatever the inputs and the world, the calls of a run come in
    this order: at most one existence check, then at most one fetch, then
    at most three calls of the upload; and the upload is never called
    unless the fetch has been sent and has succeeded. So a run never
    fetches twice, and never writes what it has not fetched. *)
Theorem calls_in_stages w inp :
  let st := final w inp in
  staged (calls st)
  ∧ (0 < upload_calls st →
     fetch_calls st = 1 ∧ ∃ dr, download_reply w = Ok dr)%nat.
Proof.
  run_paths w inp.
  - split; [|simpl; intros; lia]. exists [], [], [].
    split_and!; try done; simpl; lia.
  - destruct (check_calls_no_fetch s) as [_ ->].
    destruct (check_calls_staged s) as [H1 H2].
    split; [|simpl; intros; lia]. exists (check_calls s), [], [].
    rewrite !app_nil_r. split_and!; try done; simpl; lia.
  - destruct (check_calls_no_fetch s) as [_ ->].
    destruct (check_calls_staged s) as [H1 H2].
    split; [|simpl; intros; lia]. exists (check_calls s), [], [].
    rewrite !app_nil_r. split_and!; try done; simpl; lia.
  - rewrite filter_upload_run, filter_fetch_run.
    destruct (check_calls_staged s) as [H1 H2].
    split; [|simpl; intros; lia].
    exists (check_calls s), [CallFetch (download_options s)], [].
    split_and!; try done; first [by repeat constructor|simpl; lia].
  - rewrite filter_upload_run, filter_fetch_run.
    destruct (check_calls_staged s) as [H1 H2].
    pose proof (uploads_vetted _ _ _ _ _ Pup) as Hv.
    pose proof (uploads_at_most_three _ _ _ _ _ Pup) as H3.
    assert (Forall (λ r, is_upload r = true) cs') as Hup
      by (eapply Forall_impl; [done|]; by intros []).
    assert (List.filter is_fetch cs' = []) as ->.
    { clear -Hup. induction Hup as [|c cs Hc _ IH]; [done|].
      simpl. rewrite IH. by destruct c. }
    split; [|eauto].
    exists (check_calls s), [CallFetch (download_options s)], cs'.
    split_and!; try done; first [by repeat constructor|simpl; lia].
  - rewrite filter_upload_run, filter_fetch_run.
    destruct (check_calls_staged s) as [H1 H2].
    pose proof (uploads_vetted _ _ _ _ _ Pup) as Hv.
    pose proof (uploads_at_most_three _ _ _ _ _ Pup) as H3.
    assert (Forall (λ r, is_upload r = true) cs') as Hup
      by (eapply Forall_impl; [done|]; by intros []).
    assert (List.filter is_fetch cs' = []) as ->.
    { clear -Hup. induction Hup as [|c cs Hc _ IH]; [done|].
      simpl. rewrite IH. by destruct c. }
    split; [|eauto].
    exists (check_calls s), [CallFetch (download_options s)], cs'.
    split_and!; try done; first [by repeat constructor|simpl; lia].
Qed.

(** *** The calls of a run, from its settings *)

Lemma uploads_write_call w options o cs n b ob wo :
  uploads w options o cs n → CallWrite b ob wo ∈ cs →
  CallWrite b ob wo = write_call options.
Proof.
  intros Hu Hin.
  assert (CallWrite b ob wo ∉ class_calls options) as Hc.
  { unfold class_calls. destruct (truthy_value _); [|apply not_elem_of_nil].
    by intros ?%list_elem_of_singleton. }
  assert (CallWrite b ob wo ∉ class_calls options ++ [metadata_call options])
    as Hm.
  { intros [?|?%list_elem_of_singleton]%elem_of_app; done. }
  inversion Hu; subst.
  - by apply elem_of_nil in Hin.
  - by apply elem_of_nil in Hin.
  - by apply list_elem_of_singleton in Hin.
  - by apply elem_of_cons in Hin as [?|?].
  - by apply elem_of_cons in Hin as [?|?].
  - by apply elem_of_cons in Hin as [?|?].
Qed.


Lemma check_calls_only_checks s c :
  c ∈ check_calls s → c = CallExists (s_gcsBucket s) (s_gcsObject s).
Proof.
  unfold check_calls. destruct (s_ifNotExists s).
  - by intros ?%list_elem_of_singleton.
  - by intros ?%elem_of_nil.
Qed.

Lemma report_calls e st : calls (snd (report e st)) = calls st.
Proof. by destruct (report_fails e st) as [l ->]. Qed.

Lemma relay_calls w s st :
  ∃ o st' cs,
    relay w s st = (o, st') ∧ calls st' = calls st ++ cs
    ∧ (cs = [CallFetch (download_options s)]
       ∨ ∃ dr o' up n,
           download_reply w = Ok dr
           ∧ uploads w (upload_options s dr) o' up n
           ∧ cs = CallFetch (download_options s) :: up).
Proof.
  pose proof (relay_sound w s st) as H.
  destruct (download_reply w) as [dr|e] eqn:Ed.
  - destruct H as (l & o & cs & n & Hu & H). cbv zeta in H.
    destruct o as [r|e].
    + destruct H as [-> _]. eexists _, _, _. split_and!; [done|done|].
      right. by exists dr, (Returned r), cs, n.
    + rewrite H. eexists _, _, _. split_and!; [done|done|].
      right. by exists dr, (Threw e), cs, n.
  - destruct H as [l ->]. eexists _, _, _. split_and!; [done|done|by left].
Qed.

(** With the settings read, the calls of the run are the existence check
    if it is asked for, then nothing, or the fetch, or the fetch and the
    calls of the upload. *)
Lemma final_calls_of w inp s l0 :
  read_settings inp initial = (Returned s, add_logs initial l0) →
  ∃ cs,
    calls (final w inp) = check_calls s ++ cs
    ∧ (cs = [] ∨ cs = [CallFetch (download_options s)]
       ∨ ∃ dr o up n,
           download_reply w = Ok dr
           ∧ uploads w (upload_options s dr) o up n
           ∧ cs = CallFetch (download_options s) :: up).
Proof.
  intros E. unfold final, run, try_catch, transfer. rewrite bind_run, E.
  assert (∀ st, calls st = check_calls s →
    ∃ cs, calls (let (o, st') := relay w s st in
                 match o with
                 | Returned a => (Returned a, st')
                 | Threw e => report e st'
                 end).2 = check_calls s ++ cs
      ∧ (cs = [] ∨ cs = [CallFetch (download_options s)]
         ∨ ∃ dr o up n,
             download_reply w = Ok dr
             ∧ uploads w (upload_options s dr) o up n
             ∧ cs = CallFetch (download_options s) :: up)) as Hrelay.
  { intros st Hst.
    destruct (relay_calls w s st) as (o & st' & cs & -> & Hc & Hcs).
    exists cs. rewrite <- Hst, <- Hc.
    split; [by destruct o; rewrite ?report_calls|].
    destruct Hcs as [->|?]; auto. }
  unfold check_calls in *. destruct (s_ifNotExists s) eqn:Eif.
  - destruct (skip_if_exists_sound w s (add_logs initial l0)) as [l1 E1].
    cbv zeta in E1. rewrite bind_run, E1. clear E1.
    destruct (exists_reply w) as [[|]|e].
    + exists []. split; [done|by left].
    + apply Hrelay. done.
    + exists []. rewrite report_calls. split; [done|by left].
  - rewrite bind_ret. apply Hrelay. done.
Qed.

Lemma final_calls_missing w inp name l0 :
  read_settings inp initial = (Threw (missing name), add_logs initial l0) →
  calls (final w inp) = [].
Proof.
  intros E. unfold final, run, try_catch, transfer. rewrite bind_run, E.
  by rewrite report_calls.
Qed.

(** The value the parser returns does not depend on the label or on the
    state it starts in. *)
Lemma parseKeyValuePairs_value input name1 name2 st1 st2 :
  fst (parseKeyValuePairs input name1 st1)
  = fst (parseKeyValuePairs input name2 st2).
Proof.
  unfold parseKeyValuePairs. destruct input as [input|]; [|reflexivity].
  destruct (_ || _); [reflexivity|].
  rewrite !bind_run. destruct (startsWith 123 (trim input)).
  - unfold parse_as_json. destruct (Json.parse (trim input)) as [v|].
    + by destruct (_ || _).
    + simpl. by rewrite !parse_as_pairs_spec.
  - simpl. by rewrite !parse_as_pairs_spec.
Qed.

(** The settings a run reads: the inputs, and what the two parsers return
    for the headers and the metadata. *)
Lemma read_settings_returned inp st s st' :
  read_settings inp st = (Returned s, st') →
  ∃ h m,
    fst (parseHeaders (Some (getInput inp "headers")) initial) = Returned h
    ∧ fst (parseMetadata (Some (getInput inp "metadata")) initial)
      = Returned m
    ∧ s = settings_of inp (getInput inp "url") (getInput inp "gcs-bucket")
            (getInput inp "gcs-object") h m.
Proof.
  unfold read_settings. rewrite bind_run.
  unfold getRequiredInput at 1. case_bool_decide; [done|]. cbn iota beta.
  unfold mret at 1, M_ret at 1. cbn iota beta. rewrite bind_run.
  unfold getRequiredInput at 1. case_bool_decide; [done|]. cbn iota beta.
  unfold mret at 1, M_ret at 1. cbn iota beta. rewrite bind_run.
  unfold getRequiredInput at 1. case_bool_decide; [done|]. cbn iota beta.
  unfold mret at 1, M_ret at 1. cbn iota beta. rewrite bind_run.
  unfold parseHeaders, parseMetadata.
  destruct (parseKeyValuePairs_logs (Some (getInput inp "headers"))
              (lit "headers") st) as (h & l1 & E1).
  rewrite E1, bind_run.
  destruct (parseKeyValuePairs_logs (Some (getInput inp "metadata"))
              (lit "metadata") (add_logs st l1)) as (m & l2 & E2).
  rewrite E2. intros [= <- _]. exists h, m. split_and!; [| |done].
  - by rewrite (parseKeyValuePairs_value _ _ (lit "headers") _ st), E1.
  - by rewrite (parseKeyValuePairs_value _ _ (lit "metadata") _
                  (add_logs st l1)), E2.
Qed.


(** A write among the calls of a run is the one of the upload of the
    response, under its settings. *)
Lemma final_write w inp b o wo :
  CallWrite b o wo ∈ calls (final w inp) →
  ∃ s l0 dr,
    read_settings inp initial = (Returned s, add_logs initial l0)
    ∧ download_reply w = Ok dr
    ∧ CallWrite b o wo = write_call (upload_options s dr).
Proof.
  intros Hin.
  destruct (read_settings_cases inp initial)
    as [l0 [(name & Hn & Hs & E)|(s & Hr & E)]].
  { rewrite (final_calls_missing w inp name l0 E) in Hin.
    by apply elem_of_nil in Hin. }
  destruct (final_calls_of w inp s l0 E) as (cs & Ec & Hcs).
  rewrite Ec in Hin. apply elem_of_app in Hin as [Hin|Hin].
  { by apply check_calls_only_checks in Hin. }
  destruct Hcs as [->|[->|(dr & out & up & n & Hd & Hu & ->)]].
  - by apply elem_of_nil in Hin.
  - by apply list_elem_of_singleton in Hin.
  - apply elem_of_cons in Hin as [Hin|Hin]; [done|].
    exists s, l0, dr. split_and!; [done..|].
    by eapply uploads_write_call.
Qed.



Lemma or_undefined_truthy x : truthy_value (or_undefined x) = or_undefined x.
Proof. unfold or_undefined. case_bool_decide; [done|]. by destruct x. Qed.

Lemma or_undefined_string x :
  truthy_string (or_undefined x) = bool_decide (is_Some (or_undefined x)).
Proof.
  unfold or_undefined. case_bool_decide as E; [done|].
  destruct x; [done|]. symmetry. by apply bool_decide_eq_true_2.
Qed.

(** The parser returns an object or nothing. *)
Lemma parseKeyValuePairs_object input name st v :
  fst (parseKeyValuePairs input name st) = Returned (Some v) →
  ∃ props, v = JObject props.
Proof.
  unfold parseKeyValuePairs. destruct input as [input|]; [|done].
  destruct (_ || _); [done|].
  rewrite bind_run. destruct (startsWith 123 (trim input)) eqn:Eb.
  - unfold parse_as_json. destruct (Json.parse (trim input)) as [p|] eqn:Ep.
    + destruct (_ || _); [done|]. simpl. intros [= <-].
      by eapply parse_brace_object.
    + simpl. rewrite parse_as_pairs_spec. cbv zeta. cbn [fst].
      case_bool_decide; [|done]. intros [= <-]. by eexists.
  - simpl. rewrite parse_as_pairs_spec. cbv zeta. cbn [fst].
    case_bool_decide; [|done]. intros [= <-]. by eexists.
Qed.

(** X15. The object a run writes is the one the inputs name, and its
    write is resumable. Its content type is the input [content-type] when
    one is given, and the content type of the response otherwise; its
    access preset is the input, none when the input is empty; and it
    carries the cache control and the metadata when either is given: the
    cache control of the input, and the mapping [parseMetadata] returns
    for the input [metadata]. A write is only sent once the fetch has
    succeeded. *)
Theorem write_request_from_inputs w inp b o wo :
  CallWrite b o wo ∈ calls (final w inp) →
  ∃ dr md,
    download_reply w = Ok dr
    ∧ fst (parseMetadata (Some (getInput inp "metadata")) initial)
      = Returned md
    ∧ b = getInput inp "gcs-bucket" ∧ o = getInput inp "gcs-object"
    ∧ wo_resumable wo = true
    ∧ wo_contentType wo
      = (if bool_decide (getInput inp "content-type" = [])
         then contentType dr else Some (getInput inp "content-type"))
    ∧ wo_predefinedAcl wo = or_undefined (getInput inp "predefined-acl")
    ∧ wo_metadata wo
      = match or_undefined (getInput inp "cache-control"), md with
        | None, None => None
        | cc, md => Some {| md_cacheControl := cc; md_metadata := md |}
        end.
Proof.
  intros Hin.
  destruct (final_write w inp b o wo Hin) as (s & l0 & dr & E & Hd & Hw).
  destruct (read_settings_returned inp _ _ _ E) as (h & m & Hh & Hm & ->).
  exists dr, m. unfold write_call in Hw. injection Hw as -> -> ->.
  split_and!; try done.
  - cbn. apply or_undefined_truthy.
  - cbn. rewrite or_undefined_string.
    assert (is_truthy m = bool_decide (is_Some m)) as ->.
    { destruct m as [v|]; [|done].
      destruct (parseKeyValuePairs_object _ _ _ _ Hm) as [props ->].
      symmetry. by apply bool_decide_eq_true_2. }
    destruct (or_undefined (getInput inp "cache-control")) as [cc|];
      destruct m as [v|]; cbn;
      rewrite ?bool_decide_eq_true_2, ?bool_decide_eq_false_2
        by (try done; by intros [? [=]]); done.
Qed.

(** A content type and an access preset are given: they go with the
    write, and nothing else does. *)
Lemma write_request_from_inputs_witness :
  let wo := {| wo_contentType := Some (lit "text/csv");
               wo_metadata := None;
               wo_predefinedAcl := Some (lit "private");
               wo_resumable := true |} in
  CallWrite (lit "my-bucket") (lit "downloads/data.json") wo
  ∈ calls (final Sample.world Cases.inputs_post)
  ∧ ∃ dr md,
      download_reply Sample.world = Ok dr
      ∧ fst (parseMetadata (Some (getInput Cases.inputs_post "metadata"))
               initial) = Returned md
      ∧ lit "my-bucket" = getInput Cases.inputs_post "gcs-bucket"
      ∧ lit "downloads/data.json" = getInput Cases.inputs_post "gcs-object"
      ∧ wo_resumable wo = true
      ∧ wo_contentType wo
        = (if bool_decide (getInput Cases.inputs_post "content-type" = [])
           then contentType dr
           else Some (getInput Cases.inputs_post "content-type"))
      ∧ wo_predefinedAcl wo
        = or_undefined (getInput Cases.inputs_post "predefined-acl")
      ∧ wo_metadata wo
        = match or_undefined (getInput Cases.inputs_post "cache-control"),
                md with
          | None, None => None
          | cc, md => Some {| md_cacheControl := cc; md_metadata := md |}
          end.
Proof.
  cbv zeta.
  assert (CallWrite (lit "my-bucket") (lit "downloads/data.json")
            {| wo_contentType := Some (lit "text/csv"); wo_metadata := None;
               wo_predefinedAcl := Some (lit "private");
               wo_resumable := true |}
          ∈ calls (final Sample.world Cases.inputs_post)) as Hin.
  { vm_compute. apply list_elem_of_further, list_elem_of_here. }
  split; [exact Hin|].
  exact (write_request_from_inputs _ _ _ _ _ Hin).
Defined.

(** X16. A transfer that is done has updated the storage class of the
    object, to the class of the input or, when none is given, to STANDARD:
    the update is sent for the default class too, so a run cannot complete
    without the store accepting it. The class sent is one of the four. *)
Theorem storage_class_always_set w inp :
  let st := final w inp in
  failure st = None → fetch_calls st = 1%nat →
  storage_class inp ∈ validClasses
  ∧ CallSetStorageClass (getInput inp "gcs-bucket")
      (getInput inp "gcs-object") (storage_class inp) ∈ calls st
  ∧ storage_class_reply w = Ok ().
Proof.
  run_paths w inp; try done; intros _ Hf.
  - destruct (check_calls_no_fetch s) as [Hc _]. by rewrite Hc in Hf.
  - pose proof (run_class inp s response Pr) as Hsc.
    destruct (reads_fields inp s Pr) as (Eb & Eo & _).
    inversion Pup as [| | | | |g Hc Ha Hw [Hn|Hs] Hg]; subst;
      [congruence|].
    split_and!; [by apply Hc|..|done].
    unfold class_calls. rewrite Hsc. cbn [bucket objectName upload_options].
    rewrite Eb, Eo, elem_of_app. right.
    do 2 apply list_elem_of_further. apply list_elem_of_here.
Qed.

Lemma storage_class_always_set_witness :
  let st := final Sample.world Sample.inputs in
  storage_class Sample.inputs ∈ validClasses
  ∧ CallSetStorageClass (getInput Sample.inputs "gcs-bucket")
      (getInput Sample.inputs "gcs-object") (storage_class Sample.inputs)
    ∈ calls st
  ∧ storage_class_reply Sample.world = Ok ()
  ∧ storage_class Sample.inputs = lit "STANDARD".
Proof.
  cbv zeta.
  destruct (storage_class_always_set Sample.world Sample.inputs)
    as (H1 & H2 & H3); [by vm_compute..|].
  split_and!; [exact H1|exact H2|exact H3|by vm_compute].
Defined.



Lemma bind_logs {A B} (m : M A) (f : A → M B) st :
  logs_only m → ∃ a l, (m ≫= f) st = f a (add_logs st l).
Proof.
  intros Hm. destruct (Hm st) as (a & l & E). exists a, l.
  by rewrite bind_run, E.
Qed.

Lemma bind_assoc_run {A B C} (m : M A) (f : A → M B) (g : B → M C) st :
  ((m ≫= f) ≫= g) st = (m ≫= (λ a, f a ≫= g)) st.
Proof.
  rewrite !bind_run. destruct (m st) as [[a|err] st'] eqn:E; [|done].
  by rewrite bind_run.
Qed.

Ltac peel :=
  lazymatch goal with
  | |- context [logs (snd ((?m ≫= ?f) ?st))] =>
      let l := fresh "l" in
      destruct (bind_logs m f st) as (? & l & ->); [logs_tac|]; cbv beta
  end.

(** X18. The [catch] block of [run], for an error that carries a
    response with a body: the body is logged under its heading as the
    last lines before the failure message, whole when it has at most 500
    code units, and otherwise cut to its first 500 code units followed by
    three dots. *)
Theorem report_body_excerpt e r d st :
  response e = Some (Some r) → data r = Some d → d ≠ [] →
  ∃ l line,
    logs (snd (report (ThrownError e) st))
    = logs st ++ l
      ++ [(Error, Text (lit "  Response Body:")); (Error, Text line);
          (Error, Text (lit "Action failed: " ++ message e))]
    ∧ (length line ≤ 503)%nat
    ∧ ((length d ≤ 500)%nat → line = d)
    ∧ ((500 < length d)%nat → line = take 500 d ++ lit "...").
Proof.
  intros Hr Hd Hn. destruct d as [|c d]; [done|]. clear Hn.
  unfold report. rewrite Hr, Hd. cbn [if_truthy].
  do 4 peel.
  do 5 (rewrite bind_assoc_run; peel).
  rewrite !add_logs_app. unfold error, setFailed. rewrite !bind_run, !log_add.
  cbn [snd logs add_logs].
  eexists (l ++ l0 ++ l1 ++ l2 ++ l3 ++ l4 ++ l5 ++ l6 ++ l7), _.
  split; [by rewrite <- !app_assoc|].
  unfold substring. rewrite Nat.sub_0_r, drop_0.
  assert (length (lit "...") = 3%nat) as H3 by done.
  split_and!.
  - rewrite length_app, length_take.
    case_bool_decide; [rewrite H3|change (length (@nil N)) with 0%nat]; lia.
  - intros Hle. rewrite bool_decide_eq_false_2 by lia.
    by rewrite app_nil_r, take_ge.
  - intros Hlt. by rewrite bool_decide_eq_true_2.
Qed.

(** A body of 600 code units is cut to 503. *)
Lemma report_body_excerpt_witness :
  ∃ l line,
    logs (snd (report (ThrownError Cases.http_error) initial))
    = logs initial ++ l
      ++ [(Error, Text (lit "  Response Body:")); (Error, Text line);
          (Error,
           Text (lit "Action failed: " ++ message Cases.http_error))]
    ∧ length line = 503%nat.
Proof.
  destruct (report_body_excerpt Cases.http_error Cases.server_error
              Cases.long_body initial)
    as (l & line & E & _ & _ & Hc); [done..|].
  exists l, line. split; [exact E|].
  rewrite Hc by (vm_compute; lia). by vm_compute.
Defined.
